(** * Expected number of rolls of a snakes-and-ladders board

    A shallow embedding of [src/main.py]:
    - [get_probabilities] builds the transition table of the board, a Python
      dictionary keyed by pairs of tiles;
    - [make_matrices] turns the table into the linear system [A . X = B];
    - [solve] hands the system to NumPy's dense solver and returns the first
      entry of the solution.

    Python integers are modelled by [Z], dictionaries by [gmap], NumPy arrays
    by lists of rows.  Python floats are modelled by the exact rationals
    [Qc]: every statement below is a statement about the arithmetic the
    program performs, read in exact arithmetic (rounding is not modelled).
    The [while] loop of the transitive resolution is given fuel. *)

From Stdlib Require Import ZArith QArith Qcanon Lia.
From stdpp Require Import base tactics option list numbers gmap relations.

Local Open Scope Z_scope.

(** ** Outcomes of a Python call *)

(** The exceptions the modelled code can raise. *)
Inductive exn : Type :=
  | KeyError (key : Z * Z)
  | ValueError
  | IndexError
  | LinAlgError.

(** A call returns a value, raises, or is still running when the fuel of a
    [while] loop is used up. *)
Inductive outcome (A : Type) : Type :=
  | Ok (a : A)
  | Raise (e : exn)
  | Diverge.

Arguments Ok {A} a.
Arguments Raise {A} e.
Arguments Diverge {A}.

Global Instance outcome_bind : MBind outcome := λ A B k o,
  match o with
  | Ok a => k a
  | Raise e => Raise e
  | Diverge => Diverge
  end.

(** A [for] loop whose body may raise: the first failure ends the loop. *)
Fixpoint for_each {A S} (body : S → A → outcome S) (s : S) (l : list A) : outcome S :=
  match l with
  | [] => Ok s
  | x :: l' => s' ← body s x; for_each body s' l'
  end.

(** Python's [range(lo, hi)]. *)
Definition range (lo hi : Z) : list Z := seqZ lo (hi - lo).

(** ** The transition table *)

(** Line 35: every pair of tiles starts at probability 0. *)
Definition empty_table (size : Z) : gmap (Z * Z) Qc :=
  foldl (λ result i,
           foldl (λ result j, <[(i, j) := 0%Qc]> result) result (range 0 (size + 1)))
        ∅ (range 0 (size + 1)).

(** Lines 50-51: [while end in snadders: end = snadders[end]]. *)
Fixpoint follow (fuel : nat) (snadders : gmap Z Z) (end_ : Z) : outcome Z :=
  match snadders !! end_ with
  | None => Ok end_
  | Some next =>
      match fuel with
      | O => Diverge
      | S fuel' => follow fuel' snadders next
      end
  end.

(** Lines 49-54: cross the snadders transitively, or jump once. *)
Definition resolve (fuel : nat) (snadders : gmap Z Z) (transitive : bool) (end_ : Z)
  : outcome Z :=
  if transitive then follow fuel snadders end_
  else match snadders !! end_ with
       | Some next => Ok next
       | None => Ok end_
       end.

(** Lines 58-62: a roll past the end tile wins, or is wasted. *)
Definition overshoot (size : Z) (exact : bool) (idx end_ : Z) : Z :=
  if end_ >? size then (if exact then idx else size) else end_.

(** Lines 45-62: the tile a roll ends on. *)
Definition landing (fuel : nat) (size : Z) (snadders : gmap Z Z)
    (transitive exact : bool) (idx roll : Z) : outcome Z :=
  end_ ← resolve fuel snadders transitive (idx + roll);
  Ok (overshoot size exact idx end_).

(** Line 64: [result[idx, end] += 1.0 / dice_size]; reading a missing key
    raises [KeyError]. *)
Definition add_mass (result : gmap (Z * Z) Qc) (key : Z * Z) (dice_size : Z)
  : outcome (gmap (Z * Z) Qc) :=
  match result !! key with
  | None => Raise (KeyError key)
  | Some p => Ok (<[key := (p + 1 / Qc_of_Z dice_size)%Qc]> result)
  end.

(** Lines 44-64: the body of the loop over the rolls. *)
Definition roll_step (fuel : nat) (size : Z) (snadders : gmap Z Z) (dice_size : Z)
    (transitive exact : bool) (idx : Z) (result : gmap (Z * Z) Qc) (roll : Z)
  : outcome (gmap (Z * Z) Qc) :=
  end_ ← landing fuel size snadders transitive exact idx roll;
  add_mass result (idx, end_) dice_size.

(** Lines 37-64: the body of the loop over the source tiles. *)
Definition tile_step (fuel : nat) (size : Z) (snadders : gmap Z Z) (dice_size : Z)
    (transitive exact : bool) (result : gmap (Z * Z) Qc) (idx : Z)
  : outcome (gmap (Z * Z) Qc) :=
  for_each (roll_step fuel size snadders dice_size transitive exact idx)
           result (range 1 (dice_size + 1)).

(** Defaults of the keyword arguments (line 8). *)
Definition default_dice_size : Z := 6.
Definition default_transitive : bool := false.
Definition default_exact : bool := false.

(** Lines 8-66.  [snadders] is [None] or a dictionary; line 31 replaces
    [None] by the empty dictionary. *)
Definition get_probabilities (fuel : nat) (size : Z) (snadders : option (gmap Z Z))
    (dice_size : Z) (transitive exact : bool) : outcome (gmap (Z * Z) Qc) :=
  let snadders := default ∅ snadders in
  let result := empty_table size in
  for_each (tile_step fuel size snadders dice_size transitive exact)
           result (range 0 size).

(** ** The linear system *)

(** [np.zeros((rows, cols))]; a negative dimension raises [ValueError]. *)
Definition np_zeros (rows cols : Z) : outcome (list (list Qc)) :=
  if (rows <? 0) || (cols <? 0) then Raise ValueError
  else Ok (replicate (Z.to_nat rows) (replicate (Z.to_nat cols) 0%Qc)).

(** [a[i, j] = value] for [0 <= i, j] inside the array. *)
Definition mat_set (a : list (list Qc)) (i j : Z) (value : Qc) : list (list Qc) :=
  alter (λ row, <[Z.to_nat j := value]> row) (Z.to_nat i) a.

Definition mat_get (a : list (list Qc)) (i j : Z) : option Qc :=
  row ← a !! Z.to_nat i; row !! Z.to_nat j.

(** [probs[i, j]] *)
Definition get_item (probs : gmap (Z * Z) Qc) (key : Z * Z) : outcome Qc :=
  match probs !! key with
  | None => Raise (KeyError key)
  | Some p => Ok p
  end.

(** Lines 86-90. *)
Definition cell_step (probs : gmap (Z * Z) Qc) (i : Z) (a : list (list Qc)) (j : Z)
  : outcome (list (list Qc)) :=
  value ← get_item probs (i, j);
  let value := if i =? j then (value - 1)%Qc else value in
  Ok (mat_set a i j value).

(** [b[size] = 0] on a column of [len] entries: a negative index counts from
    the end, an index outside the column raises [IndexError]. *)
Definition set_entry (b : list Qc) (i : Z) (value : Qc) : outcome (list Qc) :=
  let len := Z.of_nat (length b) in
  if (i <? - len) || (len <=? i) then Raise IndexError
  else Ok (<[Z.to_nat (if i <? 0 then i + len else i) := value]> b).

(** Lines 69-96.  The column [b] of shape [(size + 1, 1)] is modelled by
    the list of its entries. *)
Definition make_matrices (probs : gmap (Z * Z) Qc) (size : Z)
  : outcome (list (list Qc) * list Qc) :=
  a ← np_zeros (size + 1) (size + 1);
  a ← for_each (λ a i, for_each (cell_step probs i) a (range 0 (size + 1)))
               a (range 0 (size + 1));
  b ← np_zeros (size + 1) 1;
  let b := (λ row, (default 0 (head row) - 1)%Qc) <$> b in
  b ← set_entry b size 0%Qc;
  Ok (a, b).

(** Lines 106-107: the system [solve] assembles.  The call on line 106
    passes no [transitive] and no [exact], so both take their defaults. *)
Definition system (fuel : nat) (board_size : Z) (snadders : option (gmap Z Z))
    (dice_size : Z) : outcome (list (list Qc) * list Qc) :=
  probs ← get_probabilities fuel board_size snadders dice_size
            default_transitive default_exact;
  make_matrices probs board_size.

(** ** The solver *)

Definition Qc_sum (l : list Qc) : Qc := foldr Qcplus 0%Qc l.

Definition dot (u v : list Qc) : Qc := Qc_sum (zip_with Qcmult u v).

Definition mat_vec (a : list (list Qc)) (x : list Qc) : list Qc :=
  (λ row, dot row x) <$> a.

(** [a . x = b] for a column [x] as long as [b]. *)
Definition solves (a : list (list Qc)) (b x : list Qc) : Prop :=
  length x = length b ∧ mat_vec a x = b.

(** [np.linalg.solve] is NumPy's (LAPACK) dense solver, not part of the
    repository.  It is modelled by its contract in exact arithmetic: on a
    system with exactly one solution it returns that solution, on a singular
    one it raises [LinAlgError]. *)
Inductive linalg_solve (a : list (list Qc)) (b : list Qc) : outcome (list Qc) → Prop :=
  | linalg_solve_unique x :
      solves a b x → (∀ y, solves a b y → y = x) →
      linalg_solve a b (Ok x)
  | linalg_solve_singular :
      ¬ (∃ x, solves a b x ∧ ∀ y, solves a b y → y = x) →
      linalg_solve a b (Raise LinAlgError).

(** Lines 99-110: [solve(board_size, snadders, dice_size)] returns
    [float(solution[0])]; a failure of any stage propagates. *)
Inductive solve (fuel : nat) (board_size : Z) (snadders : option (gmap Z Z))
    (dice_size : Z) : outcome Qc → Prop :=
  | solve_returns a b solution e0 :
      system fuel board_size snadders dice_size = Ok (a, b) →
      linalg_solve a b (Ok solution) →
      solution !! 0%nat = Some e0 →
      solve fuel board_size snadders dice_size (Ok e0)
  | solve_singular a b :
      system fuel board_size snadders dice_size = Ok (a, b) →
      linalg_solve a b (Raise LinAlgError) →
      solve fuel board_size snadders dice_size (Raise LinAlgError)
  | solve_raises e :
      system fuel board_size snadders dice_size = Raise e →
      solve fuel board_size snadders dice_size (Raise e)
  | solve_diverges :
      system fuel board_size snadders dice_size = Diverge →
      solve fuel board_size snadders dice_size Diverge.

(** ** What the table holds *)

(** Whether the roll [roll] from tile [idx] ends on tile [t]. *)
Definition hits (fuel : nat) (size : Z) (snadders : gmap Z Z)
    (transitive exact : bool) (idx t roll : Z) : bool :=
  match landing fuel size snadders transitive exact idx roll with
  | Ok end_ => bool_decide (end_ = t)
  | _ => false
  end.

(** The probability mass the rolls [rolls] selected by [hit] add up to. *)
Definition mass (dice_size : Z) (hit : Z → bool) (rolls : list Z) : Qc :=
  Qc_sum ((λ roll, if hit roll then (1 / Qc_of_Z dice_size)%Qc else 0%Qc) <$> rolls).

(** A roll that can be recorded in [result]: it ends on a tile, and the
    pair is a key of the table. *)
Definition recordable (fuel : nat) (size : Z) (snadders : gmap Z Z)
    (transitive exact : bool) (result : gmap (Z * Z) Qc) (idx roll : Z) : Prop :=
  ∃ t, landing fuel size snadders transitive exact idx roll = Ok t
       ∧ is_Some (result !! (idx, t)).

(** The entry [(i, j)] of the table of a board: the mass of the rolls that
    take tile [i] to tile [j]; the end tile is never left. *)
Definition entry (fuel : nat) (size : Z) (snadders : gmap Z Z) (dice_size : Z)
    (transitive exact : bool) (i j : Z) : Qc :=
  if bool_decide (i < size)
  then mass dice_size (hits fuel size snadders transitive exact i j)
            (range 1 (dice_size + 1))
  else 0%Qc.

(** ** What the system holds *)

(** The coefficient [make_matrices] stores in cell [(i, j)] (lines 87-90). *)
Definition coefficient (probs : gmap (Z * Z) Qc) (i j : Z) : Qc :=
  let value := default 0%Qc (probs !! (i, j)) in
  if i =? j then (value - 1)%Qc else value.

(** The right-hand side of equation [i] (lines 92-93). *)
Definition constant (size i : Z) : Qc :=
  if i =? size then 0%Qc else (0 - 1)%Qc.

(** ** Reading vectors and landings *)

(** [x[j]] for a column [x]; 0 outside the column. *)
Definition component (x : list Qc) (j : Z) : Qc := default 0%Qc (x !! Z.to_nat j).

(** The tile a roll ends on, when it ends on one. *)
Definition lands (fuel : nat) (size : Z) (snadders : gmap Z Z)
    (transitive exact : bool) (idx roll : Z) : Z :=
  match landing fuel size snadders transitive exact idx roll with
  | Ok end_ => end_
  | _ => 0
  end.

(** ** Snadder resolution as the board describes it *)

(** One jump along a snadder. *)
Definition hop (snadders : gmap Z Z) (t u : Z) : Prop := snadders !! t = Some u.

(** A snadder cycle can be reached from tile [t]. *)
Definition cycle_reachable (snadders : gmap Z Z) (t : Z) : Prop :=
  ∃ k, rtc (hop snadders) t k ∧ tc (hop snadders) k k.

(** The snadder map has no cycle. *)
Definition acyclic (snadders : gmap Z Z) : Prop :=
  ∀ k, ¬ tc (hop snadders) k k.

(** Transitive resolution: follow the snadders while the tile is a key;
    single resolution: look the tile up once. *)
Inductive resolves_to (snadders : gmap Z Z) : bool → Z → Z → Prop :=
  | resolves_stop t :
      snadders !! t = None → resolves_to snadders true t t
  | resolves_hop t u v :
      snadders !! t = Some u → resolves_to snadders true u v →
      resolves_to snadders true t v
  | resolves_once t u :
      snadders !! t = Some u → resolves_to snadders false t u
  | resolves_none t :
      snadders !! t = None → resolves_to snadders false t t.

(** ** Valid boards *)

(** No snadder leads to a negative tile. *)
Definition destinations_nonneg (snadders : gmap Z Z) : Prop :=
  ∀ k v, snadders !! k = Some v → 0 ≤ v.

(** Under the resolution mode in use, no roll runs into a snadder cycle. *)
Definition resolution_ends (size : Z) (snadders : gmap Z Z) (dice_size : Z)
    (transitive : bool) : Prop :=
  transitive = true →
  ∀ idx roll, 0 ≤ idx < size → 1 ≤ roll ≤ dice_size →
    ¬ cycle_reachable snadders (idx + roll).


(** ** The pipeline with explicit flags *)

(** The three stages run in turn with the given [transitive] and [exact]:
    build the table, assemble the system, solve it and return entry 0 of
    the solution. *)
Inductive pipeline (fuel : nat) (size : Z) (snadders : option (gmap Z Z))
    (dice_size : Z) (transitive exact : bool) : outcome Qc → Prop :=
  | pipeline_returns probs a b solution e0 :
      get_probabilities fuel size snadders dice_size transitive exact = Ok probs →
      make_matrices probs size = Ok (a, b) →
      linalg_solve a b (Ok solution) →
      solution !! 0%nat = Some e0 →
      pipeline fuel size snadders dice_size transitive exact (Ok e0)
  | pipeline_singular probs a b :
      get_probabilities fuel size snadders dice_size transitive exact = Ok probs →
      make_matrices probs size = Ok (a, b) →
      linalg_solve a b (Raise LinAlgError) →
      pipeline fuel size snadders dice_size transitive exact (Raise LinAlgError)
  | pipeline_no_system probs e :
      get_probabilities fuel size snadders dice_size transitive exact = Ok probs →
      make_matrices probs size = Raise e →
      pipeline fuel size snadders dice_size transitive exact (Raise e)
  | pipeline_no_table e :
      get_probabilities fuel size snadders dice_size transitive exact = Raise e →
      pipeline fuel size snadders dice_size transitive exact (Raise e)
  | pipeline_diverges :
      get_probabilities fuel size snadders dice_size transitive exact = Diverge →
      pipeline fuel size snadders dice_size transitive exact Diverge.

(** ** The table as the board describes it *)



(** ** The equations of the expected number of rolls *)

(** [x] gives the expected number of rolls of a board whose roll [r] from
    tile [i] ends on tile [land i r]: none from the end tile, and from any
    other tile one roll more than the average over the rolls (the equation
    of the docstring of [make_matrices]). *)
Definition expectation (size dice_size : Z) (land : Z → Z → Z) (x : list Qc) : Prop :=
  length x = Z.to_nat (size + 1)
  ∧ component x size = 0%Qc
  ∧ ∀ i, 0 ≤ i < size →
      component x i
      = (1 + 1 / Qc_of_Z dice_size
             * Qc_sum ((λ r, component x (land i r)) <$> range 1 (dice_size + 1)))%Qc.

(** ** Boards without snadders *)

(** Without snadders, and when an overshoot still wins, a roll moves
    forward or to the end tile. *)
Definition forward (size idx roll : Z) : Z := Z.min (idx + roll) size.

(** The expected numbers of rolls from the last [k + 1] tiles of a board
    without snadders, the end tile last. *)
Fixpoint expected_rolls (dice_size : Z) (k : nat) : list Qc :=
  match k with
  | O => [0%Qc]
  | S k' =>
      let rest := expected_rolls dice_size k' in
      (1 + 1 / Qc_of_Z dice_size
           * Qc_sum ((λ r, component rest (Z.min (r - 1) (Z.of_nat k')))
                     <$> range 1 (dice_size + 1)))%Qc
      :: rest
  end.

(** ** Kinds of boards *)

(** Every snadder is a ladder: it leads to a tile further on. *)
Definition ladders_only (snadders : gmap Z Z) : Prop :=
  ∀ k v, snadders !! k = Some v → k < v.

(** No snadder ends where another begins. *)
Definition no_chains (snadders : gmap Z Z) : Prop :=
  ∀ k v, snadders !! k = Some v → snadders !! v = None.

(** ** Boards on which every roll moves forward *)

(** The expected numbers of rolls from the last [k + 1] tiles of a board
    whose roll [r] from tile [i] ends on the later tile [land i r], the end
    tile last: back-substitution from the end tile. *)
Fixpoint tail_rolls (size dice_size : Z) (land : Z → Z → Z) (k : nat) : list Qc :=
  match k with
  | O => [0%Qc]
  | S k' =>
      let rest := tail_rolls size dice_size land k' in
      let i := size - Z.of_nat (S k') in
      (1 + 1 / Qc_of_Z dice_size
           * Qc_sum ((λ r, component rest (land i r - (i + 1)))
                     <$> range 1 (dice_size + 1)))%Qc
      :: rest
  end.

(** * Properties *)

(** ** Sanity checks on a small board of [main] *)

Example table_3_2 :
  ∃ probs, get_probabilities 0 3 (Some {[1 := 2]}) 2 false false = Ok probs
    ∧ this <$> probs !! (0, 2) = Some (1 # 1)%Q
    ∧ this <$> probs !! (1, 2) = Some (1 # 2)%Q
    ∧ this <$> probs !! (1, 3) = Some (1 # 2)%Q
    ∧ this <$> probs !! (2, 3) = Some (1 # 1)%Q
    ∧ this <$> probs !! (3, 3) = Some (0 # 1)%Q
    ∧ probs !! (3, 4) = None.
Proof. eexists. split; [vm_compute; reflexivity|]. vm_compute. done. Qed.

Example system_3_2 :
  ∃ a b, system 0 3 (Some {[1 := 2]}) 2 = Ok (a, b)
    ∧ map (map this) a = [[-1 # 1; 0; 1; 0]; [0; -1 # 1; 1 # 2; 1 # 2];
                          [0; 0; -1 # 1; 1]; [0; 0; 0; -1 # 1]]%Q
    ∧ map this b = [-1 # 1; -1 # 1; -1 # 1; 0]%Q.
Proof. do 2 eexists. split; [vm_compute; reflexivity|]. vm_compute. done. Qed.

(** ** The outcome monad *)

Lemma bind_Ok {A B} (o : outcome A) (k : A → outcome B) b :
  o ≫= k = Ok b ↔ ∃ a, o = Ok a ∧ k a = Ok b.
Proof.
  destruct o; simpl; split;
    (intros (? & ? & ?) || intros H); try congruence; eauto.
Qed.

Lemma bind_Diverge {A B} (o : outcome A) (k : A → outcome B) :
  o ≫= k = Diverge ↔ o = Diverge ∨ ∃ a, o = Ok a ∧ k a = Diverge.
Proof.
  destruct o; simpl; split;
    (intros [H|(? & ? & ?)] || intros H); try congruence; eauto;
    left; congruence.
Qed.

Lemma bind_Raise {A B} (o : outcome A) (k : A → outcome B) e :
  o ≫= k = Raise e ↔ o = Raise e ∨ ∃ a, o = Ok a ∧ k a = Raise e.
Proof.
  destruct o; simpl; split;
    (intros [H|(? & ? & ?)] || intros H); try congruence; eauto;
    left; congruence.
Qed.

(** ** Ranges *)

Lemma elem_of_range lo hi x : x ∈ range lo hi ↔ lo ≤ x < hi.
Proof. unfold range. rewrite elem_of_seqZ. lia. Qed.

Lemma NoDup_range lo hi : NoDup (range lo hi).
Proof. apply NoDup_seqZ. Qed.

Lemma length_range lo hi : length (range lo hi) = Z.to_nat (hi - lo).
Proof. apply length_seqZ. Qed.

Lemma range_snoc lo hi : lo ≤ hi → range lo (hi + 1) = range lo hi ++ [hi].
Proof.
  intros. unfold range. replace (hi + 1 - lo) with ((hi - lo) + 1) by lia.
  rewrite seqZ_app by lia. f_equal. rewrite seqZ_cons, seqZ_nil by lia.
  f_equal. lia.
Qed.

Lemma range_cons lo hi : lo < hi → range lo hi = lo :: range (lo + 1) hi.
Proof.
  intros. unfold range. rewrite seqZ_cons by lia. do 2 f_equal; lia.
Qed.

Lemma range_nil lo hi : hi ≤ lo → range lo hi = [].
Proof. intros. unfold range. apply seqZ_nil. lia. Qed.

(** ** Sums of rationals *)

Lemma Qc_sum_nil : Qc_sum [] = 0%Qc.
Proof. done. Qed.

Lemma Qc_sum_cons x l : Qc_sum (x :: l) = (x + Qc_sum l)%Qc.
Proof. done. Qed.

Arguments Qc_sum : simpl never.

Lemma Qc_sum_zero {A} (l : list A) : Qc_sum ((λ _, 0%Qc) <$> l) = 0%Qc.
Proof. induction l as [|x l IH]; csimpl; [done|]. rewrite Qc_sum_cons, IH. ring. Qed.

Lemma Qc_sum_ext {A} (f g : A → Qc) l :
  (∀ x, x ∈ l → f x = g x) → Qc_sum (f <$> l) = Qc_sum (g <$> l).
Proof.
  induction l as [|x l IH]; intros Hfg; csimpl; [done|].
  rewrite !Qc_sum_cons, Hfg, IH; [done| |left]. intros y Hy. apply Hfg. by right.
Qed.

Lemma Qc_sum_plus {A} (f g : A → Qc) l :
  Qc_sum ((λ x, f x + g x)%Qc <$> l) = (Qc_sum (f <$> l) + Qc_sum (g <$> l))%Qc.
Proof.
  induction l as [|x l IH]; csimpl; rewrite ?Qc_sum_nil, ?Qc_sum_cons, ?IH; ring.
Qed.

Lemma Qc_sum_scale {A} (c : Qc) (f : A → Qc) l :
  Qc_sum ((λ x, c * f x)%Qc <$> l) = (c * Qc_sum (f <$> l))%Qc.
Proof.
  induction l as [|x l IH]; csimpl; rewrite ?Qc_sum_nil, ?Qc_sum_cons, ?IH; ring.
Qed.


(** Summing an indicator of [k] against [f] over a duplicate-free list
    picks [f k]. *)
Lemma Qc_sum_indicator (f : Z → Qc) (k : Z) (l : list Z) :
  NoDup l →
  Qc_sum ((λ j, if bool_decide (k = j) then f j else 0%Qc) <$> l)
  = if bool_decide (k ∈ l) then f k else 0%Qc.
Proof.
  induction 1 as [|x l Hx Hl IH]; csimpl; [done|].
  rewrite Qc_sum_cons, IH.
  repeat case_bool_decide; subst; try ring; set_solver.
Qed.

(** ** The initial table *)

Lemma lookup_empty_table size i j :
  empty_table size !! (i, j)
  = if bool_decide (0 ≤ i ≤ size ∧ 0 ≤ j ≤ size) then Some 0%Qc else None.
Proof.
  unfold empty_table.
  assert (Hrow : ∀ (js : list Z) i' (m : gmap (Z * Z) Qc),
    foldl (λ result j', <[(i', j') := 0%Qc]> result) m js !! (i, j)
    = if bool_decide (i = i' ∧ j ∈ js) then Some 0%Qc else m !! (i, j)).
  { induction js as [|j' js IH]; intros i' m; simpl.
    - case_bool_decide; [set_solver|done].
    - rewrite IH. destruct (decide ((i', j') = (i, j))) as [[= -> ->]|Hne].
      + rewrite lookup_insert_eq. repeat case_bool_decide; set_solver.
      + rewrite lookup_insert_ne by done.
        repeat case_bool_decide; try done; set_solver. }
  assert (Hall : ∀ (is_ js : list Z) (m : gmap (Z * Z) Qc),
    foldl (λ result i', foldl (λ result j', <[(i', j') := 0%Qc]> result) result js)
          m is_ !! (i, j)
    = if bool_decide (i ∈ is_ ∧ j ∈ js) then Some 0%Qc else m !! (i, j)).
  { induction is_ as [|i' is_ IH]; intros js m; simpl.
    - try case_bool_decide; try done; set_solver.
    - rewrite IH, Hrow. repeat case_bool_decide; try done; set_solver. }
  rewrite Hall, lookup_empty.
  repeat case_bool_decide; try done; rewrite !elem_of_range in *; lia.
Qed.

(** ** The loops of [get_probabilities] *)

Section loops.
Context (fuel : nat) (size : Z) (snadders : gmap Z Z) (dice_size : Z)
        (transitive exact : bool).

Local Abbreviation roll_step_ := (roll_step fuel size snadders dice_size transitive exact).
Local Abbreviation tile_step_ := (tile_step fuel size snadders dice_size transitive exact).
Local Abbreviation landing_ := (landing fuel size snadders transitive exact).
Local Abbreviation hits_ := (hits fuel size snadders transitive exact).
Local Abbreviation recordable_ := (recordable fuel size snadders transitive exact).

Lemma mass_nil hit : mass dice_size hit [] = 0%Qc.
Proof. done. Qed.

Lemma mass_cons hit r rolls :
  mass dice_size hit (r :: rolls)
  = ((if hit r then 1 / Qc_of_Z dice_size else 0) + mass dice_size hit rolls)%Qc.
Proof. done. Qed.

Lemma roll_step_Ok idx result roll result' :
  roll_step_ idx result roll = Ok result' ↔
  ∃ t p, landing_ idx roll = Ok t ∧ result !! (idx, t) = Some p
         ∧ result' = <[(idx, t) := (p + 1 / Qc_of_Z dice_size)%Qc]> result.
Proof.
  unfold roll_step. rewrite bind_Ok. unfold add_mass. split.
  - intros (t & Ht & Hadd). destruct (result !! (idx, t)) as [p|] eqn:Hp; [|done].
    exists t, p. by injection Hadd as <-.
  - intros (t & p & Ht & Hp & ->). exists t. by rewrite Hp.
Qed.

(** One pass over the rolls of a tile adds the mass of the rolls that end
    on [j] to entry [(idx, j)], and leaves the other rows alone. *)
Lemma roll_loop_lookup idx rolls result result' i j :
  for_each (roll_step_ idx) result rolls = Ok result' →
  result' !! (i, j)
  = (λ p, p + if bool_decide (i = idx) then mass dice_size (hits_ idx j) rolls else 0)%Qc
      <$> result !! (i, j).
Proof.
  revert result. induction rolls as [|r rolls IH]; intros result; simpl.
  - intros [= <-]. rewrite mass_nil. destruct (result !! (i, j)); simpl; [|done].
    f_equal. case_bool_decide; ring.
  - rewrite bind_Ok. intros (r1 & Hstep & Hloop).
    apply roll_step_Ok in Hstep as (t & p & Ht & Hp & ->).
    rewrite (IH _ Hloop), mass_cons. unfold hits at 2. rewrite Ht.
    destruct (decide ((idx, t) = (i, j))) as [[= <- <-]|Hne].
    + rewrite lookup_insert_eq, Hp. simpl. f_equal.
      rewrite !bool_decide_eq_true_2 by done. ring.
    + rewrite lookup_insert_ne by done.
      destruct (result !! (i, j)); simpl; [|done]. f_equal.
      repeat case_bool_decide; try ring; congruence.
Qed.

Lemma roll_loop_keys idx rolls result result' k :
  for_each (roll_step_ idx) result rolls = Ok result' →
  is_Some (result' !! k) ↔ is_Some (result !! k).
Proof.
  intros H. destruct k as [i j]. rewrite (roll_loop_lookup _ _ _ _ _ _ H).
  by rewrite fmap_is_Some.
Qed.

(** The pass succeeds exactly when every roll can be recorded. *)
Lemma roll_loop_Ok idx rolls result :
  (∃ result', for_each (roll_step_ idx) result rolls = Ok result') ↔
  Forall (recordable_ result idx) rolls.
Proof.
  revert result. induction rolls as [|r rolls IH]; intros result; simpl.
  - split; eauto.
  - split.
    + intros (result' & H). apply bind_Ok in H as (r1 & Hstep & Hloop).
      pose proof Hstep as (t & p & Ht & Hp & ->)%roll_step_Ok.
      constructor; [exists t; eauto|].
      assert (Hall : Forall (recordable_
                (<[(idx, t) := (p + 1 / Qc_of_Z dice_size)%Qc]> result) idx) rolls)
        by (apply IH; eauto).
      eapply Forall_impl; [exact Hall|]. intros r' (t' & Ht' & Hk).
      exists t'. split; [done|]. revert Hk.
      rewrite lookup_insert. case_decide as Heq; [|done]. injection Heq as <-. eauto.
    + intros Hall. apply Forall_cons in Hall as [(t & Ht & [p Hp]) Hall].
      assert (Hstep : roll_step_ idx result r
                      = Ok (<[(idx, t) := (p + 1 / Qc_of_Z dice_size)%Qc]> result))
        by (apply roll_step_Ok; eauto).
      destruct (proj2 (IH (<[(idx, t) := (p + 1 / Qc_of_Z dice_size)%Qc]> result)))
        as [result' Hloop].
      { eapply Forall_impl; [exact Hall|]. intros r' (t' & Ht' & Hk).
        exists t'. split; [done|]. rewrite lookup_insert. case_decide; eauto. }
      exists result'. rewrite Hstep. done.
Qed.
End loops.

Section tiles.
Context (fuel : nat) (size : Z) (snadders : gmap Z Z) (dice_size : Z)
        (transitive exact : bool).

Local Abbreviation tile_step_ := (tile_step fuel size snadders dice_size transitive exact).
Local Abbreviation landing_ := (landing fuel size snadders transitive exact).
Local Abbreviation hits_ := (hits fuel size snadders transitive exact).
Local Abbreviation recordable_ := (recordable fuel size snadders transitive exact).
Local Abbreviation rolls := (range 1 (dice_size + 1)).

Lemma tile_loop_lookup idxs result result' i j :
  NoDup idxs →
  for_each tile_step_ result idxs = Ok result' →
  result' !! (i, j)
  = (λ p, p + if bool_decide (i ∈ idxs) then mass dice_size (hits_ i j) rolls else 0)%Qc
      <$> result !! (i, j).
Proof.
  intros Hnd. revert result.
  induction Hnd as [|idx idxs Hidx Hnd IH]; intros result; simpl.
  - intros [= <-]. destruct (result !! (i, j)); simpl; [|done]. f_equal. ring.
  - rewrite bind_Ok. intros (r1 & Hstep & Hloop).
    rewrite (IH _ Hloop). unfold tile_step in Hstep.
    rewrite (roll_loop_lookup _ _ _ _ _ _ _ _ _ _ _ _ Hstep).
    destruct (result !! (i, j)); simpl; [|done]. f_equal.
    repeat case_bool_decide; subst; try ring; set_solver.
Qed.

Lemma tile_loop_keys idxs result result' k :
  NoDup idxs →
  for_each tile_step_ result idxs = Ok result' →
  is_Some (result' !! k) ↔ is_Some (result !! k).
Proof.
  intros Hnd H. destruct k as [i j]. rewrite (tile_loop_lookup _ _ _ _ _ Hnd H).
  by rewrite fmap_is_Some.
Qed.

Lemma recordable_keys result result' idx roll :
  (∀ k, is_Some (result' !! k) ↔ is_Some (result !! k)) →
  recordable_ result idx roll → recordable_ result' idx roll.
Proof. intros Hk (t & Ht & Hs). exists t. split; [done|]. by apply Hk. Qed.

Lemma tile_loop_Ok idxs result :
  NoDup idxs →
  (∃ result', for_each tile_step_ result idxs = Ok result') ↔
  Forall (λ idx, Forall (recordable_ result idx) rolls) idxs.
Proof.
  intros Hnd. revert result.
  induction Hnd as [|idx idxs Hidx Hnd IH]; intros result; simpl.
  - split; eauto.
  - split.
    + intros (result' & H). apply bind_Ok in H as (r1 & Hstep & Hloop).
      unfold tile_step in Hstep. constructor.
      { apply (roll_loop_Ok fuel size snadders dice_size). eauto. }
      assert (Hall : Forall (λ idx, Forall (recordable_ r1 idx) rolls) idxs)
        by (apply IH; eauto).
      eapply Forall_impl; [exact Hall|]. intros idx' Hrolls.
      eapply Forall_impl; [exact Hrolls|]. intros roll. apply recordable_keys.
      intros k. symmetry. eapply roll_loop_keys, Hstep.
    + intros Hall. apply Forall_cons in Hall as [Hrolls Hall].
      apply (roll_loop_Ok fuel size snadders dice_size) in Hrolls as [r1 Hstep].
      destruct (proj2 (IH r1)) as [result' Hloop].
      { eapply Forall_impl; [exact Hall|]. intros idx' Hrolls.
        eapply Forall_impl; [exact Hrolls|]. intros roll. apply recordable_keys.
        intros k. eapply roll_loop_keys, Hstep. }
      exists result'. apply bind_Ok. eauto.
Qed.
End tiles.

(** ** The table [get_probabilities] returns *)

Section table.
Context (fuel : nat) (size : Z) (snadders : option (gmap Z Z)) (dice_size : Z)
        (transitive exact : bool).

Local Abbreviation landing_ := (landing fuel size (default ∅ snadders) transitive exact).
Local Abbreviation entry_ := (entry fuel size (default ∅ snadders) dice_size transitive exact).

(** The table has one entry per pair of tiles, holding the mass of the
    rolls that take the first to the second. *)
Lemma get_probabilities_lookup probs i j :
  get_probabilities fuel size snadders dice_size transitive exact = Ok probs →
  probs !! (i, j)
  = if bool_decide (0 ≤ i ≤ size ∧ 0 ≤ j ≤ size) then Some (entry_ i j) else None.
Proof.
  unfold get_probabilities. intros H.
  rewrite (tile_loop_lookup _ _ _ _ _ _ _ _ _ _ _ (NoDup_range _ _) H).
  rewrite lookup_empty_table.
  destruct (bool_decide (0 ≤ i ≤ size ∧ 0 ≤ j ≤ size)) eqn:Hin; simpl; [|done].
  apply bool_decide_eq_true in Hin. f_equal. unfold entry. rewrite Qcplus_0_l.
  repeat case_bool_decide; try done; rewrite elem_of_range in *; lia.
Qed.

(** The call returns a table exactly when every roll from every tile
    before the end ends on a tile that is not negative. *)
Lemma get_probabilities_Ok :
  (∃ probs, get_probabilities fuel size snadders dice_size transitive exact = Ok probs) ↔
  ∀ idx roll, 0 ≤ idx < size → 1 ≤ roll ≤ dice_size →
    ∃ t, landing_ idx roll = Ok t ∧ 0 ≤ t.
Proof.
  unfold get_probabilities. rewrite tile_loop_Ok by apply NoDup_range.
  rewrite Forall_forall. split.
  - intros Hall idx roll Hidx Hroll.
    assert (Hrolls := Hall idx (proj2 (elem_of_range _ _ _) Hidx)).
    rewrite Forall_forall in Hrolls.
    destruct (Hrolls roll) as (t & Ht & Hs); [apply elem_of_range; lia|].
    exists t. split; [done|]. rewrite lookup_empty_table in Hs.
    case_bool_decide; [lia|by destruct Hs].
  - intros Hall idx Hidx%elem_of_range. apply Forall_forall.
    intros roll Hroll%elem_of_range.
    destruct (Hall idx roll) as (t & Ht & Hpos); [lia..|].
    exists t. split; [done|]. rewrite lookup_empty_table.
    rewrite bool_decide_eq_true_2; [done|].
    unfold landing in Ht. apply bind_Ok in Ht as (e & _ & [= <-]).
    unfold overshoot in *. destruct (e >? size) eqn:He, exact; lia.
Qed.
End table.

(** ** The loops of [make_matrices] *)

(** Updating the cells [0 .. n-1] of an array in turn. *)
Lemma foldl_alter_range {A} (f : Z → A → A) (l : list A) (n : nat) :
  (n ≤ length l)%nat →
  foldl (λ l i, alter (f i) (Z.to_nat i) l) l (range 0 (Z.of_nat n))
  = zip_with f (range 0 (Z.of_nat n)) (take n l) ++ drop n l.
Proof.
  induction n as [|n IH]; intros Hn.
  - rewrite range_nil by lia. done.
  - destruct (lookup_lt_is_Some_2 l n) as [x Hx]; [lia|].
    rewrite Nat2Z.inj_succ, <-Z.add_1_r, range_snoc by lia.
    rewrite foldl_app, IH by lia. simpl. rewrite Nat2Z.id.
    rewrite (take_S_r _ _ _ Hx), zip_with_app; last first.
    { rewrite length_range, length_take. lia. }
    simpl. rewrite <-app_assoc. simpl.
    rewrite alter_app_r_alt; last first.
    { rewrite length_zip_with, length_range, length_take. lia. }
    rewrite length_zip_with, length_range, length_take.
    replace (n - _ `min` _)%nat with 0%nat by lia.
    by rewrite (drop_S _ _ _ Hx).
Qed.

Lemma zip_with_range_const {A B} (f : Z → A → B) (x : A) (n : nat) lo :
  zip_with f (range lo (lo + Z.of_nat n)) (replicate n x)
  = (λ i, f i x) <$> range lo (lo + Z.of_nat n).
Proof.
  revert lo. induction n as [|n IH]; intros lo.
  - by rewrite range_nil by lia.
  - rewrite range_cons by lia. csimpl. f_equal.
    replace (lo + Z.of_nat (S n)) with ((lo + 1) + Z.of_nat n) by lia. apply IH.
Qed.

Section cells.
Context (probs : gmap (Z * Z) Qc) (size : Z).

Lemma cell_step_Ok i a j a' :
  cell_step probs i a j = Ok a' ↔
  is_Some (probs !! (i, j)) ∧ a' = mat_set a i j (coefficient probs i j).
Proof.
  unfold cell_step, get_item, coefficient.
  destruct (probs !! (i, j)) as [p|]; simpl.
  - split; [intros [= <-]; eauto|intros [_ ->]; done].
  - split; [done|intros [[? [=]] _]].
Qed.

Lemma cell_loop_Ok i a js a' :
  for_each (cell_step probs i) a js = Ok a' ↔
  Forall (λ j, is_Some (probs !! (i, j))) js
  ∧ a' = foldl (λ a j, mat_set a i j (coefficient probs i j)) a js.
Proof.
  revert a. induction js as [|j js IH]; intros a; simpl.
  - split; [intros [= <-]; done|intros [_ ->]; done].
  - rewrite bind_Ok. split.
    + intros (a1 & (Hs & ->)%cell_step_Ok & (Hall & ->)%IH). eauto.
    + intros [[Hs Hall]%Forall_cons ->]. eexists. split.
      * apply cell_step_Ok. eauto.
      * apply IH. eauto.
Qed.

(** One pass over a row rewrites the row and nothing else. *)
Lemma cell_loop_row i a js :
  foldl (λ a j, mat_set a i j (coefficient probs i j)) a js
  = alter (λ row, foldl (λ row j, alter (λ _, coefficient probs i j) (Z.to_nat j) row)
                        row js) (Z.to_nat i) a.
Proof.
  revert a. induction js as [|j js IH]; intros a; simpl.
  - by rewrite list_alter_id.
  - rewrite IH. unfold mat_set. rewrite list_alter_alter_eq.
    apply list_alter_ext; [|done]. intros row _. simpl.
    by rewrite list_insert_alter.
Qed.

Lemma row_loop_Ok a a' :
  for_each (λ a i, for_each (cell_step probs i) a (range 0 (size + 1)))
           a (range 0 (size + 1)) = Ok a' ↔
  (∀ i j, 0 ≤ i ≤ size → 0 ≤ j ≤ size → is_Some (probs !! (i, j)))
  ∧ a' = foldl (λ a i, foldl (λ a j, mat_set a i j (coefficient probs i j))
                             a (range 0 (size + 1))) a (range 0 (size + 1)).
Proof.
  assert (Hgen : ∀ is_ a a',
    for_each (λ a i, for_each (cell_step probs i) a (range 0 (size + 1))) a is_ = Ok a' ↔
    Forall (λ i, Forall (λ j, is_Some (probs !! (i, j))) (range 0 (size + 1))) is_
    ∧ a' = foldl (λ a i, foldl (λ a j, mat_set a i j (coefficient probs i j))
                               a (range 0 (size + 1))) a is_).
  { clear a a'. induction is_ as [|i is_ IH]; intros a a'; simpl.
    - split; [intros [= <-]; done|intros [_ ->]; done].
    - rewrite bind_Ok. split.
      + intros (a1 & (Hs & ->)%cell_loop_Ok & (Hall & ->)%IH). eauto.
      + intros [[Hs Hall]%Forall_cons ->]. eexists. split.
        * apply cell_loop_Ok. eauto.
        * apply IH. eauto. }
  rewrite Hgen. apply and_iff_compat_r. rewrite Forall_forall. split.
  - intros H i j Hi Hj. specialize (H i). rewrite Forall_forall in H.
    apply H; apply elem_of_range; lia.
  - intros H i Hi%elem_of_range. apply Forall_forall.
    intros j Hj%elem_of_range. apply H; lia.
Qed.
End cells.

(** ** The system [make_matrices] returns *)

Lemma foldl_ext_in {A B} (f g : A → B → A) (l : list B) (a : A) :
  (∀ a x, x ∈ l → f a x = g a x) → foldl f a l = foldl g a l.
Proof.
  revert a. induction l as [|x l IH]; intros a Hfg; simpl; [done|].
  rewrite Hfg by left. apply IH. intros a' y Hy. apply Hfg. by right.
Qed.

(** Filling a fresh row of [n] cells. *)
Lemma fill_row (f : Z → Qc) (n : nat) :
  foldl (λ row j, alter (λ _, f j) (Z.to_nat j) row)
        (replicate n 0%Qc) (range 0 (Z.of_nat n))
  = f <$> range 0 (Z.of_nat n).
Proof.
  rewrite (foldl_alter_range (λ j _, f j)) by (rewrite length_replicate; lia).
  rewrite take_ge, drop_ge, app_nil_r by (rewrite length_replicate; lia).
  apply (zip_with_range_const (λ j _, f j) 0%Qc n 0).
Qed.

(** Filling a fresh array of [n] rows of [n] cells. *)
Lemma fill_array (probs : gmap (Z * Z) Qc) (n : nat) :
  foldl (λ a i, foldl (λ a j, mat_set a i j (coefficient probs i j))
                      a (range 0 (Z.of_nat n)))
        (replicate n (replicate n 0%Qc)) (range 0 (Z.of_nat n))
  = (λ i, coefficient probs i <$> range 0 (Z.of_nat n)) <$> range 0 (Z.of_nat n).
Proof.
  erewrite foldl_ext_in; last first.
  { intros a i _. apply cell_loop_row. }
  rewrite (foldl_alter_range (λ i row, foldl (λ row j,
             alter (λ _, coefficient probs i j) (Z.to_nat j) row)
             row (range 0 (Z.of_nat n))))
    by (rewrite length_replicate; lia).
  rewrite take_ge, drop_ge, app_nil_r by (rewrite length_replicate; lia).
  rewrite (zip_with_range_const _ _ n 0). apply list_fmap_ext.
  intros _ i _. apply fill_row.
Qed.

(** The column of constants. *)
Lemma fill_column (n : nat) :
  <[n := 0%Qc]> (replicate (S n) (0 - 1)%Qc)
  = constant (Z.of_nat n) <$> range 0 (Z.of_nat n + 1).
Proof.
  apply list_eq. intros k. rewrite list_lookup_fmap. unfold range.
  destruct (decide (k < S n)%nat) as [Hk|Hk].
  - rewrite lookup_seqZ_lt by lia. cbn -[replicate]. unfold constant.
    destruct (decide (n = k)) as [->|Hne].
    + rewrite list_lookup_insert_eq by (rewrite length_replicate; lia).
      by rewrite Z.add_0_l, Z.eqb_refl.
    + rewrite list_lookup_insert_ne, lookup_replicate_2 by lia.
      destruct (Z.eqb_spec (0 + Z.of_nat k) (Z.of_nat n)); [lia|done].
  - rewrite lookup_seqZ_ge by lia. cbn -[replicate]. apply lookup_ge_None.
    rewrite length_insert, length_replicate. lia.
Qed.

Lemma np_zeros_Ok rows cols :
  0 ≤ rows → 0 ≤ cols →
  np_zeros rows cols = Ok (replicate (Z.to_nat rows) (replicate (Z.to_nat cols) 0%Qc)).
Proof.
  intros. unfold np_zeros.
  destruct (Z.ltb_spec rows 0); [lia|]. destruct (Z.ltb_spec cols 0); [lia|]. done.
Qed.

(** [make_matrices] returns exactly when the board size is not negative
    and the table has every pair of tiles; the system is then the table
    with 1 subtracted on the diagonal, and the column of [-1] ending in 0. *)
Lemma make_matrices_Ok probs size a b :
  make_matrices probs size = Ok (a, b) ↔
  0 ≤ size
  ∧ (∀ i j, 0 ≤ i ≤ size → 0 ≤ j ≤ size → is_Some (probs !! (i, j)))
  ∧ a = (λ i, coefficient probs i <$> range 0 (size + 1)) <$> range 0 (size + 1)
  ∧ b = constant size <$> range 0 (size + 1).
Proof.
  destruct (decide (0 ≤ size)) as [Hge|Hlt]; last first.
  { split; [|lia]. unfold make_matrices, np_zeros.
    destruct (Z.ltb_spec (size + 1) 0) as [Hneg|Hpos]; simpl; [done|].
    replace size with (-1) by lia. done. }
  apply Z_of_nat_complete in Hge as [n ->].
  assert (Hcol : ∀ a' : list (list Qc), (b' ← np_zeros (Z.of_nat n + 1) 1;
                        b' ← set_entry ((λ row, (default 0 (head row) - 1)%Qc) <$> b')
                                       (Z.of_nat n) 0%Qc;
                        Ok (a', b'))
                 = Ok (a', constant (Z.of_nat n) <$> range 0 (Z.of_nat n + 1))).
  { intros a'. rewrite np_zeros_Ok by lia. cbn -[replicate].
    replace (Z.to_nat (Z.of_nat n + 1)) with (S n) by lia.
    rewrite fmap_replicate. unfold set_entry. rewrite length_replicate.
    destruct (Z.ltb_spec (Z.of_nat n) (- Z.of_nat (S n))); [lia|].
    destruct (Z.leb_spec (Z.of_nat (S n)) (Z.of_nat n)); [lia|].
    destruct (Z.ltb_spec (Z.of_nat n) 0); [lia|]. cbn -[replicate].
    by rewrite Nat2Z.id, fill_column. }
  assert (Harr := fill_array probs (S n)).
  replace (Z.of_nat (S n)) with (Z.of_nat n + 1) in Harr by lia.
  unfold make_matrices. rewrite (np_zeros_Ok (Z.of_nat n + 1) (Z.of_nat n + 1)) by lia.
  cbn -[replicate np_zeros].
  replace (Z.to_nat (Z.of_nat n + 1)) with (S n) by lia.
  rewrite bind_Ok. split.
  - intros (a1 & (Hkeys & ->)%row_loop_Ok & Hb). split; [lia|]. split; [done|].
    revert Hb. rewrite Hcol, Harr. by intros [= <- <-].
  - intros (_ & Hkeys & -> & ->). eexists. split.
    { apply row_loop_Ok. split; [done|reflexivity]. }
    by rewrite Hcol, Harr.
Qed.

(** ** Linear systems over a range of tiles *)

Lemma fmap_eq_inv {A B} (f g : A → B) (l : list A) :
  f <$> l = g <$> l ↔ ∀ x, x ∈ l → f x = g x.
Proof.
  induction l as [|x l IH]; csimpl.
  - split; [intros _ y Hy; by apply elem_of_nil in Hy|done].
  - split.
    + intros [= Hx Hl] y [->|Hy]%elem_of_cons; [done|]. by apply IH.
    + intros H. f_equal; [apply H; left|apply IH; intros y Hy; apply H; by right].
Qed.

Lemma vector_tabulate (x : list Qc) (n : Z) :
  length x = Z.to_nat n → x = component x <$> range 0 n.
Proof.
  intros Hlen. apply list_eq. intros k. rewrite list_lookup_fmap. unfold range.
  destruct (decide (k < length x)%nat) as [Hk|Hk].
  - rewrite lookup_seqZ_lt by lia. simpl. unfold component.
    replace (Z.to_nat (0 + Z.of_nat k)) with k by lia. by destruct (lookup_lt_is_Some_2 x k Hk) as [v ->].
  - rewrite lookup_seqZ_ge by lia. simpl. apply lookup_ge_None. lia.
Qed.

Lemma dot_fmap {A} (f g : A → Qc) (l : list A) :
  dot (f <$> l) (g <$> l) = Qc_sum ((λ j, f j * g j)%Qc <$> l).
Proof.
  unfold dot. induction l as [|x l IH]; csimpl; [done|].
  by rewrite !Qc_sum_cons, IH.
Qed.

(** A column solves a tabulated system when it satisfies every equation. *)
Lemma solves_tabulated (A : Z → Z → Qc) (B : Z → Qc) (size : Z) (x : list Qc) :
  solves ((λ i, A i <$> range 0 (size + 1)) <$> range 0 (size + 1))
         (B <$> range 0 (size + 1)) x ↔
  length x = Z.to_nat (size + 1)
  ∧ ∀ i, 0 ≤ i ≤ size →
      Qc_sum ((λ j, A i j * component x j)%Qc <$> range 0 (size + 1)) = B i.
Proof.
  unfold solves, mat_vec. rewrite length_fmap, length_range, Z.sub_0_r.
  rewrite <-list_fmap_compose, fmap_eq_inv.
  split; intros [Hlen H]; (split; [done|]);
    assert (Hdot : ∀ i, dot (A i <$> range 0 (size + 1)) x
       = Qc_sum ((λ j, A i j * component x j)%Qc <$> range 0 (size + 1)))
      by (intros i; rewrite <-dot_fmap; f_equal; by apply vector_tabulate).
  - intros i Hi. rewrite <-H by (apply elem_of_range; lia). simpl. by rewrite Hdot.
  - intros i Hi%elem_of_range. rewrite <-H by lia. simpl. by rewrite Hdot.
Qed.

(** ** Weighted sums of a row of the table *)

Section rows.
Context (fuel : nat) (size : Z) (snadders : gmap Z Z) (dice_size : Z)
        (transitive exact : bool).

Local Abbreviation landing_ := (landing fuel size snadders transitive exact).
Local Abbreviation lands_ := (lands fuel size snadders transitive exact).
Local Abbreviation hits_ := (hits fuel size snadders transitive exact).

(** Weighting row [i] of the table by [x] is averaging [x] over the tiles
    the rolls end on. *)
Lemma mass_weighted (x : Z → Qc) (i : Z) (rolls : list Z) :
  (∀ r, r ∈ rolls → ∃ t, landing_ i r = Ok t ∧ 0 ≤ t ≤ size) →
  Qc_sum ((λ j, mass dice_size (hits_ i j) rolls * x j)%Qc <$> range 0 (size + 1))
  = (1 / Qc_of_Z dice_size * Qc_sum ((λ r, x (lands_ i r)) <$> rolls))%Qc.
Proof.
  induction rolls as [|r rolls IH]; intros Hland.
  - csimpl. rewrite Qc_sum_nil, Qcmult_0_r.
    erewrite Qc_sum_ext; [apply Qc_sum_zero|]. intros j _. simpl.
    rewrite mass_nil. ring.
  - csimpl. rewrite Qc_sum_cons.
    erewrite Qc_sum_ext; last first.
    { intros j _. rewrite mass_cons. rewrite Qcmult_plus_distr_l. reflexivity. }
    rewrite Qc_sum_plus, IH by (intros r' Hr'; apply Hland; by right).
    destruct (Hland r) as (t & Ht & Hrange); [left|].
    erewrite (Qc_sum_ext _ (λ j, 1 / Qc_of_Z dice_size
                   * (if bool_decide (t = j) then x j else 0))%Qc); last first.
    { intros j _. cbv beta. unfold hits. rewrite Ht. case_bool_decide; ring. }
    rewrite Qc_sum_scale, Qc_sum_indicator by apply NoDup_range.
    rewrite bool_decide_eq_true_2 by (apply elem_of_range; lia).
    replace (lands_ i r) with t by (unfold lands; by rewrite Ht). ring.
Qed.
End rows.

(** ** The [while] loop of the transitive resolution *)

Section follow.
Context (snadders : gmap Z Z).

Lemma follow_Ok fuel t v :
  follow fuel snadders t = Ok v → resolves_to snadders true t v.
Proof.
  revert t. induction fuel as [|fuel IH]; intros t; simpl;
    destruct (snadders !! t) as [u|] eqn:Hu; try discriminate.
  - intros [= <-]. by constructor.
  - intros H. eapply resolves_hop; eauto.
  - intros [= <-]. by constructor.
Qed.

Lemma follow_not_Raise fuel t e : follow fuel snadders t ≠ Raise e.
Proof.
  revert t. induction fuel as [|fuel IH]; intros t; simpl;
    destruct (snadders !! t) as [u|]; try discriminate. apply IH.
Qed.





(** Forgetting the snadder at [t] does not change the loop from [t'],
    unless the loop comes by [t]. *)
Lemma follow_delete t fuel t' :
  follow fuel (delete t snadders) t' = follow fuel snadders t'
  ∨ rtc (hop snadders) t' t.
Proof.
  revert t'. induction fuel as [|fuel IH]; intros t';
    (destruct (decide (t' = t)) as [->|Hne]; [right; apply rtc_refl|]);
    simpl; rewrite lookup_delete_ne by done;
    destruct (snadders !! t') as [u|] eqn:Hu; auto.
  destruct (IH u) as [?|Hr]; [by left|right]. by eapply rtc_l.
Qed.
End follow.

Lemma tc_mono {A} (R1 R2 : relation A) x y :
  (∀ x y, R1 x y → R2 x y) → tc R1 x y → tc R2 x y.
Proof.
  intros Hsub. induction 1 as [x y Hxy|x y z Hxy _ IH].
  - apply tc_once, Hsub, Hxy.
  - eapply tc_l; [apply Hsub; exact Hxy|exact IH].
Qed.

(** A loop that outlives as many iterations as there are snadders has
    come by some tile twice. *)
Lemma follow_Diverge fuel snadders t :
  follow fuel snadders t = Diverge → (size snadders ≤ fuel)%nat →
  cycle_reachable snadders t.
Proof.
  revert snadders t. induction fuel as [|fuel IH]; intros snadders t; simpl.
  - intros H Hsize. assert (snadders = ∅) as -> by (apply map_size_empty_inv; lia).
    by rewrite lookup_empty in H.
  - destruct (snadders !! t) as [u|] eqn:Hu; [|done]. intros Hdiv Hsize.
    destruct (follow_delete snadders t fuel u) as [Heq|Hback].
    + destruct (IH (delete t snadders) u) as (k & Hk & Hc).
      { by rewrite Heq. }
      { rewrite map_size_delete, Hu. simpl. lia. }
      assert (Hsub : ∀ x y, hop (delete t snadders) x y → hop snadders x y).
      { unfold hop. intros x y Hxy. by apply lookup_delete_Some in Hxy as [_ ?]. }
      exists k. split.
      * eapply rtc_l; [exact Hu|]. eapply rtc_subrel; [exact Hsub|done].
      * eapply tc_mono; [exact Hsub|done].
    + exists t. split; [apply rtc_refl|].
      eapply tc_rtc_r; [apply tc_once; exact Hu|done].
Qed.



(** ** Where a roll ends *)

Lemma overshoot_le size exact idx end_ :
  idx ≤ size → overshoot size exact idx end_ ≤ size.
Proof. unfold overshoot. destruct (Z.gtb_spec end_ size), exact; lia. Qed.

Lemma overshoot_nonneg size exact idx end_ :
  0 ≤ idx ≤ size → 0 ≤ end_ → 0 ≤ overshoot size exact idx end_.
Proof. unfold overshoot. destruct (Z.gtb_spec end_ size), exact; lia. Qed.

Section landing.
Context (fuel : nat) (size : Z) (snadders : gmap Z Z) (transitive exact : bool).

Lemma resolve_Ok t v :
  resolve fuel snadders transitive t = Ok v → resolves_to snadders transitive t v.
Proof.
  unfold resolve. destruct transitive; [apply follow_Ok|].
  destruct (snadders !! t) as [u|] eqn:Hu; intros [= <-]; by constructor.
Qed.


Lemma resolve_not_Raise t e : resolve fuel snadders transitive t ≠ Raise e.
Proof.
  unfold resolve. destruct transitive; [apply follow_not_Raise|].
  by destruct (snadders !! t).
Qed.

Lemma resolve_Diverge t :
  resolve fuel snadders transitive t = Diverge ↔
  transitive = true ∧ follow fuel snadders t = Diverge.
Proof.
  unfold resolve. destruct transitive; [naive_solver|].
  destruct (snadders !! t); naive_solver.
Qed.

Lemma landing_Ok idx roll t :
  landing fuel size snadders transitive exact idx roll = Ok t ↔
  ∃ end_, resolve fuel snadders transitive (idx + roll) = Ok end_
          ∧ t = overshoot size exact idx end_.
Proof.
  unfold landing. rewrite bind_Ok. split; intros (e & He & Ht); exists e; split;
    congruence.
Qed.

Lemma landing_not_Raise idx roll e :
  landing fuel size snadders transitive exact idx roll ≠ Raise e.
Proof.
  unfold landing. rewrite bind_Raise. intros [H|(? & _ & [=])].
  by apply resolve_not_Raise in H.
Qed.

Lemma landing_Diverge idx roll :
  landing fuel size snadders transitive exact idx roll = Diverge ↔
  transitive = true ∧ follow fuel snadders (idx + roll) = Diverge.
Proof.
  unfold landing. rewrite bind_Diverge, resolve_Diverge. split; [|auto].
  intros [H|(? & _ & [=])]. done.
Qed.

(** A roll ends on a tile that is not negative as soon as the snadders
    lead to no negative tile. *)
Lemma landing_nonneg idx roll t :
  (∀ k v, snadders !! k = Some v → 0 ≤ v) →
  0 ≤ idx < size → 1 ≤ roll →
  landing fuel size snadders transitive exact idx roll = Ok t → 0 ≤ t.
Proof.
  intros Hpos Hidx Hroll (e & He%resolve_Ok & ->)%landing_Ok.
  apply overshoot_nonneg; [lia|].
  assert (Hstart : 0 ≤ idx + roll) by lia. revert Hstart.
  induction He as [t Ht|t u v Hu _ IH|t u Hu|t Ht]; eauto.
Qed.
End landing.

(** ** How the builder fails *)

Lemma for_each_stops {A S} (body : S → A → outcome S) s l o :
  for_each body s l = o → (∀ s', o ≠ Ok s') →
  ∃ l1 x l2 s', l = l1 ++ x :: l2 ∧ for_each body s l1 = Ok s' ∧ body s' x = o.
Proof.
  intros <-. revert s. induction l as [|x l IH]; intros s Hno; simpl in *.
  { by destruct (Hno s). }
  destruct (body s x) as [s1|e|] eqn:Hx; simpl in *.
  - destruct (IH s1 Hno) as (l1 & y & l2 & s' & -> & Hl1 & Hy).
    exists (x :: l1), y, l2, s'. simpl. rewrite Hx. simpl. done.
  - exists [], x, l, s. done.
  - exists [], x, l, s. done.
Qed.

Section stops.
Context (fuel : nat) (size : Z) (snadders : option (gmap Z Z)) (dice_size : Z)
        (transitive exact : bool).

(** A call that returns no table stopped at some roll of some tile, on
    a table that still has every pair of tiles and no other key. *)
Lemma get_probabilities_stops o :
  get_probabilities fuel size snadders dice_size transitive exact = o →
  (∀ probs, o ≠ Ok probs) →
  ∃ idx roll result,
    0 ≤ idx < size ∧ 1 ≤ roll ≤ dice_size
    ∧ (∀ k, is_Some (result !! k) ↔ is_Some (empty_table size !! k))
    ∧ roll_step fuel size (default ∅ snadders) dice_size transitive exact
                idx result roll = o.
Proof.
  unfold get_probabilities. intros Ho Hno.
  apply for_each_stops in Ho as (l1 & idx & l2 & s1 & Hl & Hs1 & Hidx); [|done].
  unfold tile_step in Hidx.
  apply for_each_stops in Hidx as (r1 & roll & r2 & s2 & Hr & Hs2 & Hroll); [|done].
  exists idx, roll, s2. split; [|split; [|split; [|done]]].
  - apply elem_of_range. rewrite Hl. set_solver.
  - assert (H : roll ∈ range 1 (dice_size + 1)) by (rewrite Hr; set_solver).
    apply elem_of_range in H. lia.
  - intros k. etrans; [eapply roll_loop_keys, Hs2|].
    eapply tile_loop_keys; [|exact Hs1].
    pose proof (NoDup_range 0 size) as Hnd. rewrite Hl in Hnd.
    by apply NoDup_app in Hnd as [? _].
Qed.

(** The only failure is a [KeyError], on a roll that ends on a negative
    tile. *)
Lemma get_probabilities_Raise e :
  get_probabilities fuel size snadders dice_size transitive exact = Raise e →
  ∃ idx roll t,
    0 ≤ idx < size ∧ 1 ≤ roll ≤ dice_size
    ∧ landing fuel size (default ∅ snadders) transitive exact idx roll = Ok t
    ∧ t < 0 ∧ e = KeyError (idx, t).
Proof.
  intros (idx & roll & result & Hidx & Hroll & Hkeys & Hstep)%get_probabilities_stops;
    [|done].
  unfold roll_step in Hstep. apply bind_Raise in Hstep as [H|(t & Ht & Hadd)].
  { by apply landing_not_Raise in H. }
  exists idx, roll, t. unfold add_mass in Hadd.
  destruct (result !! (idx, t)) as [p|] eqn:Hp; [done|]. injection Hadd as <-.
  repeat split; try done; try lia.
  assert (Hnone : ¬ is_Some (empty_table size !! (idx, t))).
  { rewrite <-Hkeys, Hp. by intros [? [=]]. }
  rewrite lookup_empty_table in Hnone.
  apply landing_Ok in Ht as (e & _ & ->).
  pose proof (overshoot_le size exact idx e).
  case_bool_decide as Hin; [destruct Hnone; eauto|]. lia.
Qed.

(** The call runs out of fuel only inside the transitive resolution of
    some roll. *)
Lemma get_probabilities_Diverge :
  get_probabilities fuel size snadders dice_size transitive exact = Diverge →
  transitive = true ∧
  ∃ idx roll, 0 ≤ idx < size ∧ 1 ≤ roll ≤ dice_size
    ∧ follow fuel (default ∅ snadders) (idx + roll) = Diverge.
Proof.
  intros (idx & roll & result & Hidx & Hroll & Hkeys & Hstep)%get_probabilities_stops;
    [|done].
  unfold roll_step in Hstep. apply bind_Diverge in Hstep as [H|(t & Ht & Hadd)].
  - apply landing_Diverge in H as [-> H]. eauto 10.
  - unfold add_mass in Hadd. by destruct (result !! (idx, t)).
Qed.
End stops.

(** ** The share of one roll *)

Lemma share_pos dice_size : 1 ≤ dice_size → (0 < 1 / Qc_of_Z dice_size)%Qc.
Proof.
  intros HD. unfold Qcdiv. rewrite Qcmult_1_l. apply Qcinv_pos.
  rewrite <-Z2Qc_inj_0. apply (proj1 (Z2Qc_inj_lt 0 dice_size)). lia.
Qed.







(** ** Valid boards have a table *)

Section returns.
Context (fuel : nat) (size : Z) (snadders : option (gmap Z Z)) (dice_size : Z)
        (transitive exact : bool).

Lemma get_probabilities_lands probs idx roll :
  get_probabilities fuel size snadders dice_size transitive exact = Ok probs →
  0 ≤ idx < size → 1 ≤ roll ≤ dice_size →
  ∃ t, landing fuel size (default ∅ snadders) transitive exact idx roll = Ok t
       ∧ 0 ≤ t ≤ size.
Proof.
  intros H Hidx Hroll.
  destruct (proj1 (get_probabilities_Ok fuel size snadders dice_size transitive exact))
    with idx roll as (t & Ht & Hpos); eauto.
  exists t. split; [done|]. split; [done|].
  apply landing_Ok in Ht as (e & _ & ->). apply overshoot_le. lia.
Qed.

Lemma get_probabilities_returns :
  destinations_nonneg (default ∅ snadders) →
  resolution_ends size (default ∅ snadders) dice_size transitive →
  (base.size (default ∅ snadders) ≤ fuel)%nat →
  ∃ probs, get_probabilities fuel size snadders dice_size transitive exact = Ok probs.
Proof.
  intros Hpos Hends Hfuel.
  destruct (get_probabilities fuel size snadders dice_size transitive exact)
    as [probs|e|] eqn:Hget; [eauto| |].
  - apply get_probabilities_Raise in Hget
      as (idx & roll & t & Hidx & Hroll & Ht & Hneg & _).
    apply landing_nonneg in Ht; [lia|done|done|lia].
  - apply get_probabilities_Diverge in Hget
      as (Htr & idx & roll & Hidx & Hroll & Hdiv).
    apply follow_Diverge in Hdiv; [|done]. by apply Hends in Hdiv.
Qed.


End returns.



(** ** The system of a table *)

Lemma mat_get_tabulated (A : Z → Z → Qc) (size i j : Z) :
  0 ≤ i ≤ size → 0 ≤ j ≤ size →
  mat_get ((λ i, A i <$> range 0 (size + 1)) <$> range 0 (size + 1)) i j
  = Some (A i j).
Proof.
  intros Hi Hj. unfold mat_get, range.
  rewrite list_lookup_fmap, lookup_seqZ_lt by lia. simpl.
  rewrite list_lookup_fmap, lookup_seqZ_lt by lia. simpl.
  do 2 f_equal; lia.
Qed.

Lemma lookup_tabulated {T} (B : Z → T) (size i : Z) :
  0 ≤ i ≤ size → (B <$> range 0 (size + 1)) !! Z.to_nat i = Some (B i).
Proof.
  intros Hi. unfold range. rewrite list_lookup_fmap, lookup_seqZ_lt by lia. simpl.
  do 2 f_equal; lia.
Qed.

Section assembled.
Context (fuel : nat) (size : Z) (snadders : option (gmap Z Z)) (dice_size : Z)
        (transitive exact : bool) (probs : gmap (Z * Z) Qc).
Context (Hget : get_probabilities fuel size snadders dice_size transitive exact
                = Ok probs).

Lemma table_has_key i j :
  0 ≤ i ≤ size → 0 ≤ j ≤ size → is_Some (probs !! (i, j)).
Proof.
  intros Hi Hj. rewrite (get_probabilities_lookup _ _ _ _ _ _ _ _ _ Hget).
  rewrite bool_decide_eq_true_2 by lia. eauto.
Qed.

(** The system assembled from a table, in closed form. *)
Lemma make_matrices_table :
  0 ≤ size →
  make_matrices probs size
  = Ok ((λ i, coefficient probs i <$> range 0 (size + 1)) <$> range 0 (size + 1),
        constant size <$> range 0 (size + 1)).
Proof.
  intros Hsize. apply make_matrices_Ok. split; [done|]. split; [|done].
  apply table_has_key.
Qed.

(** The end tile has no outgoing mass. *)
Lemma table_end_row j : 0 ≤ size → 0 ≤ j ≤ size → probs !! (size, j) = Some 0%Qc.
Proof.
  intros Hsize Hj. rewrite (get_probabilities_lookup _ _ _ _ _ _ _ _ _ Hget).
  rewrite bool_decide_eq_true_2 by lia. unfold entry.
  by rewrite bool_decide_eq_false_2 by lia.
Qed.
End assembled.

(** C2: for a table [probs] returned by [get_probabilities] for a board of
    [size] tiles, [make_matrices] returns [a] and [b] of [size + 1] rows
    with [a[i, j] = probs[i, j]] off the diagonal,
    [a[i, i] = probs[i, i] - 1] on it, and [b[i] = -1] except
    [b[size] = 0]. *)
Theorem make_matrices_spec fuel size snadders dice_size transitive exact probs :
  0 ≤ size →
  get_probabilities fuel size snadders dice_size transitive exact = Ok probs →
  ∃ a b,
    make_matrices probs size = Ok (a, b)
    ∧ length a = Z.to_nat (size + 1) ∧ length b = Z.to_nat (size + 1)
    ∧ (∀ i j, 0 ≤ i ≤ size → 0 ≤ j ≤ size →
         ∃ p, probs !! (i, j) = Some p
              ∧ mat_get a i j = Some (if bool_decide (i = j) then (p - 1)%Qc else p))
    ∧ (∀ i, 0 ≤ i ≤ size →
         b !! Z.to_nat i = Some (if bool_decide (i = size) then 0%Qc else (-1)%Qc)).
Proof.
  intros Hsize Hget. do 2 eexists.
  split; [by eapply make_matrices_table|].
  rewrite !length_fmap, length_range, Z.sub_0_r. do 2 (split; [done|]). split.
  - intros i j Hi Hj.
    destruct (table_has_key _ _ _ _ _ _ _ Hget i j Hi Hj) as [p Hp].
    exists p. split; [done|]. rewrite mat_get_tabulated by done. f_equal.
    unfold coefficient. rewrite Hp. simpl.
    destruct (Z.eqb_spec i j); by case_bool_decide.
  - intros i Hi. rewrite lookup_tabulated by done. f_equal. unfold constant.
    destruct (Z.eqb_spec i size); case_bool_decide; try done; ring.
Qed.

Lemma make_matrices_spec_witness :
  ∃ probs a b,
    get_probabilities 0 3 (Some {[1 := 2]}) 2 false false = Ok probs
    ∧ make_matrices probs 3 = Ok (a, b)
    ∧ (∀ i j, 0 ≤ i ≤ 3 → 0 ≤ j ≤ 3 →
         ∃ p, probs !! (i, j) = Some p
              ∧ mat_get a i j = Some (if bool_decide (i = j) then (p - 1)%Qc else p))
    ∧ (∀ i, 0 ≤ i ≤ 3 →
         b !! Z.to_nat i = Some (if bool_decide (i = 3) then 0%Qc else (-1)%Qc)).
Proof.
  eexists.
  assert (Hget : get_probabilities 0 3 (Some {[1 := 2]}) 2 false false = Ok _)
    by (vm_compute; reflexivity).
  destruct (make_matrices_spec 0 3 (Some {[1 := 2]}) 2 false false _ ltac:(lia) Hget)
    as (a & b & Hmake & _ & _ & Ha & Hb).
  exists a, b. eauto.
Defined.

(** C7: for a table returned by [get_probabilities], the row of the end
    tile is all zeros, so row [size] of the matrix [make_matrices] returns
    is all zeros except [a[size, size] = -1], and [b[size] = 0]: the last
    equation of the system says [x[size] = 0]. *)
Theorem absorbing_row fuel size snadders dice_size transitive exact probs :
  0 ≤ size →
  get_probabilities fuel size snadders dice_size transitive exact = Ok probs →
  (∀ j, 0 ≤ j ≤ size → probs !! (size, j) = Some 0%Qc)
  ∧ ∃ a b row,
      make_matrices probs size = Ok (a, b)
      ∧ a !! Z.to_nat size = Some row
      ∧ (∀ j, 0 ≤ j ≤ size →
           row !! Z.to_nat j = Some (if bool_decide (j = size) then (-1)%Qc else 0%Qc))
      ∧ b !! Z.to_nat size = Some 0%Qc
      ∧ ∀ x, length x = length b →
          (dot row x = 0%Qc ↔ x !! Z.to_nat size = Some 0%Qc).
Proof.
  intros Hsize Hget. split; [intros j Hj; by eapply table_end_row|].
  do 2 eexists. exists (coefficient probs size <$> range 0 (size + 1)).
  split; [by eapply make_matrices_table|].
  assert (Hcoef : ∀ j, 0 ≤ j ≤ size →
    coefficient probs size j = if bool_decide (j = size) then (-1)%Qc else 0%Qc).
  { intros j Hj. unfold coefficient.
    rewrite (table_end_row _ _ _ _ _ _ _ Hget) by done. simpl.
    destruct (Z.eqb_spec size j); case_bool_decide; try done; try lia; ring. }
  split; [by rewrite lookup_tabulated by lia|]. split.
  { intros j Hj. by rewrite lookup_tabulated, Hcoef by done. }
  split.
  { rewrite lookup_tabulated by lia. unfold constant. by rewrite Z.eqb_refl. }
  intros x. rewrite length_fmap, length_range, Z.sub_0_r. intros Hlen.
  rewrite (vector_tabulate x (size + 1)) by done.
  rewrite dot_fmap, lookup_tabulated by lia.
  erewrite Qc_sum_ext; last first.
  { intros j Hj%elem_of_range. rewrite Hcoef by lia.
    instantiate (1 := λ j, if bool_decide (size = j)
                           then (- component x j)%Qc else 0%Qc).
    simpl. repeat case_bool_decide; try lia; ring. }
  rewrite (Qc_sum_indicator (λ j, (- component x j)%Qc)) by apply NoDup_range.
  rewrite bool_decide_eq_true_2 by (apply elem_of_range; lia). split.
  - intros H. f_equal. rewrite <-(Qcopp_involutive (component x size)), H. ring.
  - intros [= ->]. ring.
Qed.

Lemma absorbing_row_witness :
  ∃ probs,
    get_probabilities 0 3 (Some {[1 := 2]}) 2 false false = Ok probs
    ∧ (∀ j, 0 ≤ j ≤ 3 → probs !! (3, j) = Some 0%Qc)
    ∧ ∃ a b row,
        make_matrices probs 3 = Ok (a, b)
        ∧ a !! Z.to_nat 3 = Some row
        ∧ (∀ j, 0 ≤ j ≤ 3 →
             row !! Z.to_nat j = Some (if bool_decide (j = 3) then (-1)%Qc else 0%Qc))
        ∧ b !! Z.to_nat 3 = Some 0%Qc
        ∧ ∀ x, length x = length b →
            (dot row x = 0%Qc ↔ x !! Z.to_nat 3 = Some 0%Qc).
Proof.
  eexists.
  assert (Hget : get_probabilities 0 3 (Some {[1 := 2]}) 2 false false = Ok _)
    by (vm_compute; reflexivity).
  split; [exact Hget|].
  exact (absorbing_row 0 3 (Some {[1 := 2]}) 2 false false _ ltac:(lia) Hget).
Defined.

(** ** Single resolution *)

Lemma mass_ext dice_size (hit hit' : Z → bool) rolls :
  (∀ r, r ∈ rolls → hit r = hit' r) →
  mass dice_size hit rolls = mass dice_size hit' rolls.
Proof.
  intros H. unfold mass. apply Qc_sum_ext. intros r Hr. by rewrite H.
Qed.

Lemma landing_once fuel size snadders exact idx roll :
  landing fuel size snadders false exact idx roll
  = Ok (overshoot size exact idx (default (idx + roll) (snadders !! (idx + roll)))).
Proof. unfold landing, resolve. by destruct (snadders !! (idx + roll)). Qed.

(** C8: with [transitive] false the snadder map is looked up once per
    roll: a roll whose raw landing tile is a snadder source ends on the
    destination of that snadder (after the overshoot policy), whether or
    not the destination is itself a snadder source, and the table records
    exactly those landings. *)
Theorem single_lookup fuel size snadders dice_size exact :
  (∀ idx roll next,
     snadders !! (idx + roll) = Some next →
     landing fuel size snadders false exact idx roll
     = Ok (overshoot size exact idx next))
  ∧ (∀ idx roll,
       snadders !! (idx + roll) = None →
       landing fuel size snadders false exact idx roll
       = Ok (overshoot size exact idx (idx + roll)))
  ∧ ∀ probs i j,
      get_probabilities fuel size (Some snadders) dice_size false exact = Ok probs →
      0 ≤ i < size → 0 ≤ j ≤ size →
      probs !! (i, j)
      = Some (mass dice_size
                (λ roll, bool_decide
                   (overshoot size exact i
                      (default (i + roll) (snadders !! (i + roll))) = j))
                (range 1 (dice_size + 1))).
Proof.
  split; [|split].
  - intros idx roll next H. by rewrite landing_once, H.
  - intros idx roll H. by rewrite landing_once, H.
  - intros probs i j Hget Hi Hj.
    rewrite (get_probabilities_lookup _ _ _ _ _ _ _ _ _ Hget).
    rewrite bool_decide_eq_true_2 by lia. unfold entry.
    rewrite bool_decide_eq_true_2 by lia. f_equal. apply mass_ext.
    intros r _. unfold hits. by rewrite landing_once.
Qed.

(** On the chain 1 -> 2 -> 3 a roll to tile 1 stops on tile 2 under single
    resolution and on tile 3 under transitive resolution. *)
Example single_lookup_chain :
  let snadders : gmap Z Z := {[1 := 2; 2 := 3]} in
  landing 2 5 snadders false false 0 1 = Ok 2
  ∧ landing 2 5 snadders true false 0 1 = Ok 3.
Proof. split; vm_compute; reflexivity. Qed.

(** ** [solve] and the pipeline *)

Lemma for_each_not_Diverge {A S} (body : S → A → outcome S) s l :
  (∀ s x, body s x ≠ Diverge) → for_each body s l ≠ Diverge.
Proof.
  intros Hbody. revert s. induction l as [|x l IH]; intros s; simpl; [done|].
  rewrite bind_Diverge. intros [H|(s' & _ & H)]; [by eapply Hbody|by eapply IH].
Qed.

Lemma make_matrices_not_Diverge probs size : make_matrices probs size ≠ Diverge.
Proof.
  unfold make_matrices. rewrite bind_Diverge. intros [H|(a & _ & H)].
  { unfold np_zeros in H. by destruct (_ || _). }
  apply bind_Diverge in H as [H|(a' & _ & H)].
  { revert H. apply for_each_not_Diverge. intros a1 i. apply for_each_not_Diverge.
    intros a2 j. unfold cell_step, get_item. by destruct (probs !! (i, j)). }
  apply bind_Diverge in H as [H|(b & _ & H)].
  { unfold np_zeros in H. by destruct (_ || _). }
  apply bind_Diverge in H as [H|(b' & _ & H)]; [|done].
  unfold set_entry in H. by destruct (_ || _).
Qed.

Lemma system_Ok fuel board_size snadders dice_size a b :
  system fuel board_size snadders dice_size = Ok (a, b) ↔
  ∃ probs, get_probabilities fuel board_size snadders dice_size false false = Ok probs
           ∧ make_matrices probs board_size = Ok (a, b).
Proof. unfold system. apply bind_Ok. Qed.

(** C10: [solve(board_size, snadders, dice_size)] is the pipeline run with
    transitive resolution disabled and with the overshoot-still-wins policy:
    whatever [solve] does (return entry 0 of the solution, raise, or not
    end), the pipeline with [transitive = False] and [exact = False] does,
    and conversely. *)
Theorem solve_is_pipeline fuel board_size snadders dice_size o :
  solve fuel board_size snadders dice_size o ↔
  pipeline fuel board_size snadders dice_size false false o.
Proof.
  split.
  - intros [a b x e0 Hsys Hsol He0|a b Hsys Hsol|e Hsys|Hsys].
    + apply system_Ok in Hsys as (probs & Hget & Hmake).
      by eapply pipeline_returns.
    + apply system_Ok in Hsys as (probs & Hget & Hmake).
      by eapply pipeline_singular.
    + unfold system in Hsys. apply bind_Raise in Hsys as [Hget|(probs & Hget & Hmake)].
      * by apply pipeline_no_table.
      * by eapply pipeline_no_system.
    + unfold system in Hsys. apply bind_Diverge in Hsys as [Hget|(probs & Hget & Hmake)].
      * by apply pipeline_diverges.
      * by apply make_matrices_not_Diverge in Hmake.
  - intros [probs a b x e0 Hget Hmake Hsol He0|probs a b Hget Hmake Hsol
            |probs e Hget Hmake|e Hget|Hget].
    + eapply solve_returns; [|done..]. apply system_Ok. eauto.
    + eapply solve_singular; [|done]. apply system_Ok. eauto.
    + apply solve_raises. unfold system. apply bind_Raise. eauto.
    + apply solve_raises. unfold system. apply bind_Raise. eauto.
    + apply solve_diverges. unfold system. apply bind_Diverge. eauto.
Qed.

(** The flags matter: on this board the table [solve] builds differs from
    the tables built with either flag enabled. *)
Example flags_change_the_table :
  let snadders := Some ({[1 := 2; 2 := 3]} : gmap Z Z) in
  ∃ probs probs_t probs_e,
    get_probabilities 2 3 snadders 2 false false = Ok probs
    ∧ get_probabilities 2 3 snadders 2 true false = Ok probs_t
    ∧ get_probabilities 2 3 snadders 2 false true = Ok probs_e
    ∧ this <$> probs !! (0, 2) = Some (1 # 2)%Q
    ∧ this <$> probs_t !! (0, 2) = Some 0%Q
    ∧ this <$> probs !! (2, 3) = Some 1%Q
    ∧ this <$> probs_e !! (2, 3) = Some (1 # 2)%Q.
Proof.
  do 3 eexists. repeat (split; [vm_compute; reflexivity|]). vm_compute. reflexivity.
Qed.

(** ** Failures of the builder *)



(** A snadder to a negative tile is what makes the builder fail. *)
Example negative_destination_raises :
  get_probabilities 0 3 (Some {[1 := -1]}) 2 false false = Raise (KeyError (0, -1)).
Proof. vm_compute. reflexivity. Qed.

(** ** Termination of the builder *)

(** C9: [get_probabilities] ends on every input except a transitive
    resolution that runs into a snadder cycle: a call that is still running
    after as many iterations of the [while] loop as there are snadders has
    [transitive] set and some raw landing tile from which a snadder cycle
    can be reached.  In particular the call ends when [transitive] is
    false, and when the snadder map has no cycle. *)
Theorem builder_terminates fuel size snadders dice_size transitive exact :
  ((base.size (default ∅ snadders) ≤ fuel)%nat →
   get_probabilities fuel size snadders dice_size transitive exact = Diverge →
   transitive = true
   ∧ ∃ idx roll, 0 ≤ idx < size ∧ 1 ≤ roll ≤ dice_size
       ∧ cycle_reachable (default ∅ snadders) (idx + roll))
  ∧ (transitive = false →
     get_probabilities fuel size snadders dice_size transitive exact ≠ Diverge)
  ∧ (acyclic (default ∅ snadders) →
     (base.size (default ∅ snadders) ≤ fuel)%nat →
     get_probabilities fuel size snadders dice_size transitive exact ≠ Diverge).
Proof.
  assert (Hmain : (base.size (default ∅ snadders) ≤ fuel)%nat →
    get_probabilities fuel size snadders dice_size transitive exact = Diverge →
    transitive = true
    ∧ ∃ idx roll, 0 ≤ idx < size ∧ 1 ≤ roll ≤ dice_size
        ∧ cycle_reachable (default ∅ snadders) (idx + roll)).
  { intros Hfuel (Htr & idx & roll & Hidx & Hroll & Hdiv)%get_probabilities_Diverge.
    split; [done|]. exists idx, roll. repeat split; try lia.
    by apply follow_Diverge in Hdiv. }
  split; [exact Hmain|]. split.
  - intros -> [Htr _]%get_probabilities_Diverge. done.
  - intros Hacyclic Hfuel Hdiv.
    destruct (Hmain Hfuel Hdiv) as (_ & idx & roll & _ & _ & k & _ & Hc).
    by apply Hacyclic in Hc.
Qed.


(** With single resolution the same cycle is harmless. *)
Example single_resolution_ends_on_cycle :
  ∃ probs, get_probabilities 0 3 (Some {[1 := 2; 2 := 1]}) 1 false false = Ok probs.
Proof. eexists. vm_compute. reflexivity. Qed.

(** ** The table against its description *)





(** ** The system states the expected number of rolls *)

Lemma Qc_move (a x : Qc) : (a - x = 0 - 1)%Qc ↔ x = (1 + a)%Qc.
Proof.
  split; intros H.
  - replace x with (a - (a - x))%Qc by ring. rewrite H. ring.
  - subst. ring.
Qed.

Lemma Qc_opp_zero (x : Qc) : (0 - x = 0)%Qc ↔ x = 0%Qc.
Proof.
  split; intros H.
  - replace x with (0 - (0 - x))%Qc by ring. rewrite H. ring.
  - subst. ring.
Qed.

Section equations.
Context (fuel : nat) (size : Z) (snadders : option (gmap Z Z)) (dice_size : Z)
        (transitive exact : bool) (probs : gmap (Z * Z) Qc).
Context (Hsize : 0 ≤ size).
Context (Hget : get_probabilities fuel size snadders dice_size transitive exact
                = Ok probs).

Local Abbreviation lands_ := (lands fuel size (default ∅ snadders) transitive exact).
Local Abbreviation entry_ :=
  (entry fuel size (default ∅ snadders) dice_size transitive exact).

Lemma coefficient_table i j :
  0 ≤ i ≤ size → 0 ≤ j ≤ size →
  coefficient probs i j
  = (entry_ i j + if bool_decide (i = j) then - (1) else 0)%Qc.
Proof.
  intros Hi Hj. unfold coefficient.
  rewrite (get_probabilities_lookup _ _ _ _ _ _ _ _ _ Hget).
  rewrite bool_decide_eq_true_2 by lia. simpl.
  destruct (Z.eqb_spec i j); case_bool_decide; try done; ring.
Qed.

(** Row [i] of the matrix applied to [x]. *)
Lemma row_times (x : Z → Qc) i :
  0 ≤ i ≤ size →
  Qc_sum ((λ j, coefficient probs i j * x j)%Qc <$> range 0 (size + 1))
  = ((if bool_decide (i < size)%Z
      then 1 / Qc_of_Z dice_size
           * Qc_sum ((λ r, x (lands_ i r)) <$> range 1 (dice_size + 1))
      else 0) - x i)%Qc.
Proof.
  intros Hi.
  erewrite Qc_sum_ext; last first.
  { intros j Hj%elem_of_range. rewrite coefficient_table by lia.
    instantiate (1 := λ j, (entry_ i j * x j
                            + (if bool_decide (i = j) then - x j else 0))%Qc).
    simpl. case_bool_decide; ring. }
  rewrite Qc_sum_plus.
  rewrite (Qc_sum_indicator (λ j, (- x j)%Qc)) by apply NoDup_range.
  rewrite bool_decide_eq_true_2 by (apply elem_of_range; lia).
  unfold Qcminus. f_equal. unfold entry. case_bool_decide as Hlt.
  - apply mass_weighted. intros r Hr%elem_of_range.
    eapply get_probabilities_lands; eauto; lia.
  - erewrite Qc_sum_ext; [apply Qc_sum_zero|]. intros j _. simpl. ring.
Qed.

(** The columns that solve the system are the expectations of the
    board. *)
Lemma solves_expectation a b x :
  make_matrices probs size = Ok (a, b) →
  solves a b x ↔ expectation size dice_size lands_ x.
Proof.
  rewrite (make_matrices_table _ _ _ _ _ _ _ Hget Hsize). intros [= <- <-].
  rewrite solves_tabulated. unfold expectation.
  split; intros [Hlen Heq]; (split; [done|]).
  - split.
    + specialize (Heq size ltac:(lia)). rewrite row_times in Heq by lia.
      rewrite bool_decide_eq_false_2 in Heq by lia.
      unfold constant in Heq. rewrite Z.eqb_refl in Heq. by apply Qc_opp_zero.
    + intros i Hi. specialize (Heq i ltac:(lia)). rewrite row_times in Heq by lia.
      rewrite bool_decide_eq_true_2 in Heq by lia. unfold constant in Heq.
      destruct (Z.eqb_spec i size); [lia|]. by apply Qc_move.
  - destruct Heq as [Hend Heq]. intros i Hi. rewrite row_times by lia.
    unfold constant. destruct (Z.eqb_spec i size) as [->|Hne].
    + rewrite bool_decide_eq_false_2 by lia. by apply Qc_opp_zero.
    + rewrite bool_decide_eq_true_2 by lia. apply Qc_move, Heq. lia.
Qed.
End equations.

(** ** Expected rolls on a board without snadders *)

Lemma lands_forward fuel size idx roll :
  lands fuel size ∅ false false idx roll = forward size idx roll.
Proof.
  unfold lands. rewrite landing_once, lookup_empty. simpl.
  unfold overshoot, forward. destruct (Z.gtb_spec (idx + roll) size); lia.
Qed.

Lemma component_cons h (t : list Qc) (j : Z) :
  1 ≤ j → component (h :: t) j = component t (j - 1).
Proof.
  intros Hj. unfold component.
  replace (Z.to_nat j) with (S (Z.to_nat (j - 1))) by lia. done.
Qed.

Lemma component_lookup (x : list Qc) (i : Z) :
  0 ≤ i → (Z.to_nat i < length x)%nat → x !! Z.to_nat i = Some (component x i).
Proof.
  intros Hi Hlen. unfold component.
  by destruct (lookup_lt_is_Some_2 x (Z.to_nat i) Hlen) as [v ->].
Qed.

Lemma expectation_ext size dice_size (land land' : Z → Z → Z) x :
  (∀ i r, land i r = land' i r) →
  expectation size dice_size land x → expectation size dice_size land' x.
Proof.
  intros Hext (Hlen & Hend & Heq). split; [done|]. split; [done|].
  intros i Hi. rewrite Heq by done. do 2 f_equal. apply Qc_sum_ext.
  intros r _. by rewrite Hext.
Qed.

Section forward.
Context (dice_size : Z) (HD : 1 ≤ dice_size).

(** [expected_rolls] is an expectation of the board. *)
Lemma expected_rolls_expectation (k : nat) :
  expectation (Z.of_nat k) dice_size (forward (Z.of_nat k))
              (expected_rolls dice_size k).
Proof.
  induction k as [|k (Hlen & Hend & Heq)].
  { split; [done|]. split; [done|]. intros i Hi. lia. }
  cbn [expected_rolls]. set (rest := expected_rolls dice_size k) in *.
  split; [simpl; rewrite Hlen; lia|]. split.
  { rewrite component_cons by lia.
    by replace (Z.of_nat (S k) - 1) with (Z.of_nat k) by lia. }
  intros i Hi.
  assert (Hshift : ∀ r, 1 ≤ r →
    forward (Z.of_nat (S k)) i r - 1 = Z.min (i - 1 + r) (Z.of_nat k))
    by (intros r Hr; unfold forward; lia).
  destruct (decide (i = 0)) as [->|Hne].
  - unfold component at 1. simpl. do 2 f_equal.
    apply Qc_sum_ext. intros r Hr%elem_of_range.
    rewrite component_cons by (unfold forward; lia).
    rewrite Hshift by lia. f_equal. lia.
  - rewrite component_cons by lia. rewrite Heq by lia. do 2 f_equal.
    apply Qc_sum_ext. intros r Hr%elem_of_range.
    rewrite component_cons by (unfold forward; lia).
    rewrite Hshift by lia. unfold forward. done.
Qed.

Context (size : Z) (Hsize : 0 ≤ size).

(** Two expectations of the board agree on every tile. *)
Lemma expectation_unique_component x y i :
  expectation size dice_size (forward size) x →
  expectation size dice_size (forward size) y →
  0 ≤ i ≤ size → component x i = component y i.
Proof.
  intros (_ & Hxend & Hx) (_ & Hyend & Hy).
  assert (Hind : ∀ (k : nat) i, size - i ≤ Z.of_nat k → 0 ≤ i ≤ size →
                   component x i = component y i).
  { clear i. induction k as [|k IH]; intros i Hk Hi.
    - replace i with size by lia. by rewrite Hxend, Hyend.
    - destruct (decide (i = size)) as [->|Hne]; [by rewrite Hxend, Hyend|].
      rewrite Hx, Hy by lia. do 2 f_equal. apply Qc_sum_ext.
      intros r Hr%elem_of_range. apply IH; unfold forward; lia. }
  apply (Hind (Z.to_nat (size - i))). lia.
Qed.

Lemma expectation_unique x y :
  expectation size dice_size (forward size) x →
  expectation size dice_size (forward size) y → x = y.
Proof.
  intros Hx Hy.
  rewrite (vector_tabulate x (size + 1)) by apply Hx.
  rewrite (vector_tabulate y (size + 1)) by apply Hy.
  apply fmap_eq_inv. intros i Hi%elem_of_range.
  apply expectation_unique_component; [done..|lia].
Qed.

Lemma expectation_exists :
  ∃ x, expectation size dice_size (forward size) x.
Proof.
  exists (expected_rolls dice_size (Z.to_nat size)).
  pose proof (expected_rolls_expectation (Z.to_nat size)) as H.
  by rewrite Z2Nat.id in H by lia.
Qed.
End forward.


Section decreasing.
Context (size dice_size : Z) (Hsize : 1 ≤ size) (HD : 1 ≤ dice_size).
Context (x : list Qc) (Hx : expectation size dice_size (forward size) x).



End decreasing.

(** With a dice of one face every roll advances by one tile. *)
Lemma expectation_one_face size x i :
  0 ≤ size → expectation size 1 (forward size) x →
  0 ≤ i ≤ size → component x i = Qc_of_Z (size - i).
Proof.
  intros Hsize (_ & Hend & Heq).
  assert (Hind : ∀ (k : nat) i, size - i ≤ Z.of_nat k → 0 ≤ i ≤ size →
                   component x i = Qc_of_Z (size - i)).
  { clear i. induction k as [|k IH]; intros i Hk Hi;
      (destruct (decide (i = size)) as [->|Hne];
       [by rewrite Hend, Z.sub_diag, Z2Qc_inj_0|]); [lia|].
    rewrite Heq by lia. rewrite (range_cons 1 (1 + 1)), range_nil by lia.
    rewrite fmap_cons, Qc_sum_cons. csimpl. rewrite Qc_sum_nil.
    unfold forward. replace (Z.min (i + 1) size) with (i + 1) by lia.
    rewrite IH by lia. replace (size - i) with (1 + (size - (i + 1))) by lia.
    rewrite (Z2Qc_inj_add 1), !Z2Qc_inj_1. unfold Qcdiv.
    rewrite Qcmult_1_l. change (/ 1)%Qc with 1%Qc. ring. }
  intros Hi. apply (Hind (Z.to_nat (size - i))); lia.
Qed.

(** ** [solve] on a board without snadders *)

Section plain_board.
Context (fuel : nat) (board_size : Z) (snadders : option (gmap Z Z)) (dice_size : Z).
Context (Hsize : 0 ≤ board_size) (HD : 1 ≤ dice_size).
Context (Hempty : default ∅ snadders = ∅).

(** The system [solve] assembles has the expectations of the board as
    its solutions. *)
Lemma plain_system :
  ∃ a b, system fuel board_size snadders dice_size = Ok (a, b)
         ∧ ∀ x, solves a b x ↔ expectation board_size dice_size (forward board_size) x.
Proof.
  destruct (get_probabilities_returns fuel board_size snadders dice_size false false)
    as [probs Hget].
  { rewrite Hempty. intros k v. by rewrite lookup_empty. }
  { intros [=]. }
  { rewrite Hempty, map_size_empty. lia. }
  pose proof (make_matrices_table _ _ _ _ _ _ _ Hget Hsize) as Hmake.
  do 2 eexists. split; [apply system_Ok; eauto|].
  intros x. rewrite (solves_expectation _ _ _ _ _ _ _ Hsize Hget _ _ x Hmake).
  rewrite Hempty.
  split; apply expectation_ext; intros i r; by rewrite lands_forward.
Qed.

(** [solve] returns entry 0 of the one expectation of the board, and
    does nothing else. *)
Lemma plain_solve :
  ∃ a b x,
    system fuel board_size snadders dice_size = Ok (a, b)
    ∧ expectation board_size dice_size (forward board_size) x
    ∧ linalg_solve a b (Ok x)
    ∧ (∀ o, linalg_solve a b o → o = Ok x)
    ∧ ∀ o, solve fuel board_size snadders dice_size o ↔ o = Ok (component x 0).
Proof.
  destruct plain_system as (a & b & Hsys & Hsolves).
  destruct (expectation_exists dice_size board_size Hsize) as [x Hx].
  assert (Huniq : ∀ y, solves a b y → y = x).
  { intros y Hy%Hsolves. by eapply expectation_unique. }
  assert (Hsol : linalg_solve a b (Ok x)).
  { constructor; [by apply Hsolves|done]. }
  assert (Honly : ∀ o, linalg_solve a b o → o = Ok x).
  { intros o [y Hy _|Hnone]; [by rewrite (Huniq y Hy)|].
    destruct Hnone. exists x. split; [by apply Hsolves|done]. }
  assert (Hx0 : x !! 0%nat = Some (component x 0)).
  { apply (component_lookup x 0); [done|]. destruct Hx as [-> _]. lia. }
  exists a, b, x. do 4 (split; [done|]). intros o. split.
  - intros [a' b' y e0 Hsys' Hy He0|a' b' Hsys' Hy|e Hsys'|Hsys'];
      rewrite Hsys in Hsys'; try discriminate; injection Hsys' as <- <-.
    + apply Honly in Hy as [= ->]. congruence.
    + by apply Honly in Hy.
  - intros ->. by eapply solve_returns.
Qed.
End plain_board.

(** C5: on a board of [N >= 1] tiles with no snadders, [solve] with a dice
    of one face (and its overshoot-still-wins policy) returns exactly
    [N], and does nothing else. *)
Theorem solve_one_face fuel board_size snadders :
  1 ≤ board_size → default ∅ snadders = ∅ →
  solve fuel board_size snadders 1 (Ok (Qc_of_Z board_size))
  ∧ ∀ o, solve fuel board_size snadders 1 o → o = Ok (Qc_of_Z board_size).
Proof.
  intros Hsize Hempty.
  destruct (plain_solve fuel board_size snadders 1) as (a & b & x & _ & Hx & _ & _ & Hsolve);
    [lia|done|].
  assert (Hx0 : component x 0 = Qc_of_Z board_size).
  { rewrite (expectation_one_face board_size x 0) by (done || lia).
    by rewrite Z.sub_0_r. }
  rewrite <-Hx0. split; [by apply Hsolve|]. intros o. by apply Hsolve.
Qed.

Lemma solve_one_face_witness :
  solve 0 4 None 1 (Ok (Qc_of_Z 4))
  ∧ ∀ o, solve 0 4 None 1 o → o = Ok (Qc_of_Z 4).
Proof. apply (solve_one_face 0 4 None); [lia|reflexivity]. Defined.



(** The expected rolls of the board of 3 tiles with a dice of 2 faces. *)
Example expected_rolls_3_2 :
  map this (expected_rolls 2 3) = [9 # 4; 3 # 2; 1; 0]%Q.
Proof. vm_compute. reflexivity. Qed.

(** * Further properties of the builder *)

Lemma for_each_ext {A S} (body body' : S → A → outcome S) s l :
  (∀ s x, x ∈ l → body s x = body' s x) →
  for_each body s l = for_each body' s l.
Proof.
  revert s. induction l as [|x l IH]; intros s Hext; simpl; [done|].
  rewrite Hext by left. destruct (body' s x); simpl; [|done..].
  apply IH. intros s' y Hy. apply Hext. by right.
Qed.

Lemma for_each_skip {A S} (body : S → A → outcome S) s l :
  (∀ s x, x ∈ l → body s x = Ok s) → for_each body s l = Ok s.
Proof.
  induction l as [|x l IH]; intros Hbody; simpl; [done|].
  rewrite Hbody by left. simpl. apply IH. intros s' y Hy. apply Hbody. by right.
Qed.

(** Two calls whose rolls end alike build the same table. *)
Lemma get_probabilities_same_landings fuel fuel' size snadders dice_size
    transitive exact transitive' exact' :
  (∀ idx roll, 0 ≤ idx < size → 1 ≤ roll ≤ dice_size →
     landing fuel size (default ∅ snadders) transitive exact idx roll
     = landing fuel' size (default ∅ snadders) transitive' exact' idx roll) →
  get_probabilities fuel size snadders dice_size transitive exact
  = get_probabilities fuel' size snadders dice_size transitive' exact'.
Proof.
  intros Hland. unfold get_probabilities. apply for_each_ext.
  intros result idx Hidx%elem_of_range. unfold tile_step. apply for_each_ext.
  intros result' roll Hroll%elem_of_range. unfold roll_step.
  by rewrite Hland by lia.
Qed.

(** X1: the table [get_probabilities] returns has one key for every pair
    of tiles in [0 .. size] and no other key, whatever the snadders, the
    dice and the flags. *)
Theorem table_keys fuel size snadders dice_size transitive exact probs i j :
  get_probabilities fuel size snadders dice_size transitive exact = Ok probs →
  is_Some (probs !! (i, j)) ↔ 0 ≤ i ≤ size ∧ 0 ≤ j ≤ size.
Proof.
  intros Hget. rewrite (get_probabilities_lookup _ _ _ _ _ _ _ _ _ Hget).
  case_bool_decide; [by split|]. split; [intros [? [=]]|done].
Qed.

Lemma table_keys_witness :
  ∃ probs, get_probabilities 0 3 (Some {[1 := 7]}) 2 false true = Ok probs
           ∧ (is_Some (probs !! (2, 3)) ↔ 0 ≤ 2 ≤ 3 ∧ 0 ≤ 3 ≤ 3)
           ∧ (is_Some (probs !! (0, 7)) ↔ 0 ≤ 0 ≤ 3 ∧ 0 ≤ 7 ≤ 3).
Proof.
  eexists.
  assert (Hget : get_probabilities 0 3 (Some {[1 := 7]}) 2 false true = Ok _)
    by (vm_compute; reflexivity).
  split; [exact Hget|]. split; exact (table_keys _ _ _ _ _ _ _ _ _ Hget).
Defined.

(** X2: on a board without tiles to leave ([size <= 0]) or with a dice
    without faces ([dice_size <= 0]) no roll is made: [get_probabilities]
    returns the initial table, all zeros, without looking at the snadders;
    it neither fails nor runs forever, and [1.0 / dice_size] is never
    evaluated. *)
Theorem no_rolls_no_moves fuel size snadders dice_size transitive exact :
  size ≤ 0 ∨ dice_size ≤ 0 →
  get_probabilities fuel size snadders dice_size transitive exact
  = Ok (empty_table size)
  ∧ ∀ i j, empty_table size !! (i, j)
           = if bool_decide (0 ≤ i ≤ size ∧ 0 ≤ j ≤ size) then Some 0%Qc else None.
Proof.
  intros Hnone. split; [|intros i j; apply lookup_empty_table].
  unfold get_probabilities. destruct Hnone as [Hsize|HD].
  - by rewrite range_nil by lia.
  - apply for_each_skip. intros result idx _. unfold tile_step.
    by rewrite range_nil by lia.
Qed.

Lemma no_rolls_no_moves_witness :
  get_probabilities 0 3 (Some {[1 := 2; 2 := 1]}) 0 true false = Ok (empty_table 3)
  ∧ ∀ i j, empty_table 3 !! (i, j)
           = if bool_decide (0 ≤ i ≤ 3 ∧ 0 ≤ j ≤ 3) then Some 0%Qc else None.
Proof. apply no_rolls_no_moves. right. lia. Defined.

(** X3: the [exact] flag only matters for rolls that go past the end
    tile: when every roll resolves to a tile of the board, the tables built
    with [exact] true and false are the same (and the two calls fail or run
    on alike). *)
Theorem exact_irrelevant_without_overshoot fuel size snadders dice_size transitive :
  (∀ idx roll end_, 0 ≤ idx < size → 1 ≤ roll ≤ dice_size →
     resolve fuel (default ∅ snadders) transitive (idx + roll) = Ok end_ →
     end_ ≤ size) →
  get_probabilities fuel size snadders dice_size transitive true
  = get_probabilities fuel size snadders dice_size transitive false.
Proof.
  intros Hin. apply get_probabilities_same_landings.
  intros idx roll Hidx Hroll. unfold landing.
  destruct (resolve fuel (default ∅ snadders) transitive (idx + roll))
    as [e| |] eqn:He; simpl; [|done..].
  specialize (Hin idx roll e Hidx Hroll He). unfold overshoot.
  destruct (Z.gtb_spec e size); [lia|done].
Qed.

Lemma exact_irrelevant_without_overshoot_witness :
  get_probabilities 0 3 (Some {[1 := 3]}) 1 false true
  = get_probabilities 0 3 (Some {[1 := 3]}) 1 false false.
Proof.
  apply exact_irrelevant_without_overshoot.
  intros idx roll e Hidx Hroll. unfold resolve. simpl.
  destruct (decide (idx + roll = 1)) as [->|Hne].
  - rewrite lookup_singleton_eq. intros [= <-]. lia.
  - rewrite lookup_singleton_ne by done. intros [= <-]. lia.
Defined.

Lemma follow_no_chains fuel snadders t :
  no_chains snadders →
  follow (S fuel) snadders t = Ok (default t (snadders !! t)).
Proof.
  intros Hno. simpl. destruct (snadders !! t) as [v|] eqn:Hv; [|done].
  simpl. destruct fuel; simpl; by rewrite (Hno _ _ Hv).
Qed.

(** X4: the [transitive] flag only matters for chains of snadders: when
    no snadder ends where another begins, the tables built with
    [transitive] true and false are the same. *)
Theorem transitive_irrelevant_without_chains fuel size snadders dice_size exact :
  no_chains (default ∅ snadders) →
  get_probabilities (S fuel) size snadders dice_size true exact
  = get_probabilities (S fuel) size snadders dice_size false exact.
Proof.
  intros Hno. apply get_probabilities_same_landings.
  intros idx roll _ _. unfold landing, resolve. rewrite follow_no_chains by done.
  by destruct (default ∅ snadders !! (idx + roll)).
Qed.

Lemma transitive_irrelevant_without_chains_witness :
  get_probabilities 1 5 (Some {[1 := 3; 4 := 2]}) 2 true false
  = get_probabilities 1 5 (Some {[1 := 3; 4 := 2]}) 2 false false.
Proof.
  apply transitive_irrelevant_without_chains.
  intros k v. simpl. rewrite lookup_insert_Some, lookup_singleton_Some.
  intros [[<- <-]|[_ [<- <-]]]; done.
Defined.

Lemma mass_none dice_size hit rolls :
  (∀ r, r ∈ rolls → hit r = false) → mass dice_size hit rolls = 0%Qc.
Proof.
  intros Hhit. rewrite (mass_ext _ _ (λ _, false)) by done.
  unfold mass. apply Qc_sum_zero.
Qed.

Lemma resolves_to_ladders snadders transitive t v :
  ladders_only snadders → resolves_to snadders transitive t v → t ≤ v.
Proof.
  intros Hup. induction 1 as [t Ht|t u v Hu _ IH|t u Hu|t Ht]; try lia.
  - apply Hup in Hu. lia.
  - apply Hup in Hu. lia.
Qed.

(** A roll on a board of ladders, when an overshoot still wins, ends
    further on. *)
Lemma landing_ladders fuel size snadders transitive idx roll t :
  ladders_only snadders → idx < size → 1 ≤ roll →
  landing fuel size snadders transitive false idx roll = Ok t → idx < t.
Proof.
  intros Hup Hidx Hroll (e & He%resolve_Ok & ->)%landing_Ok.
  apply resolves_to_ladders in He; [|done]. unfold overshoot.
  destruct (Z.gtb_spec e size); lia.
Qed.

(** X5: on a board whose snadders are all ladders, when an overshoot
    still wins ([exact] false), no roll moves backward or stays: every
    entry [(i, j)] with [j <= i] of the table is 0. *)
Theorem ladders_never_go_back fuel size snadders dice_size transitive probs i j :
  ladders_only (default ∅ snadders) →
  get_probabilities fuel size snadders dice_size transitive false = Ok probs →
  0 ≤ j ≤ i → i ≤ size →
  probs !! (i, j) = Some 0%Qc.
Proof.
  intros Hup Hget Hj Hi. rewrite (get_probabilities_lookup _ _ _ _ _ _ _ _ _ Hget).
  rewrite bool_decide_eq_true_2 by lia. f_equal. unfold entry.
  case_bool_decide as Hlt; [|done]. apply mass_none.
  intros r Hr%elem_of_range. unfold hits.
  destruct (landing fuel size (default ∅ snadders) transitive false i r)
    as [t| |] eqn:Ht; [|done..].
  apply landing_ladders in Ht; [|done|lia..]. apply bool_decide_eq_false_2. lia.
Qed.

Lemma ladders_never_go_back_witness :
  ∃ probs, get_probabilities 2 4 (Some {[1 := 3; 3 := 4]}) 2 true false = Ok probs
           ∧ probs !! (2, 1) = Some 0%Qc.
Proof.
  eexists.
  assert (Hget : get_probabilities 2 4 (Some {[1 := 3; 3 := 4]}) 2 true false = Ok _)
    by (vm_compute; reflexivity).
  split; [exact Hget|].
  apply (ladders_never_go_back _ _ _ _ _ _ 2 1) in Hget; [done| |lia..].
  intros k v. simpl. rewrite lookup_insert_Some, lookup_singleton_Some.
  intros [[<- <-]|[_ [<- <-]]]; lia.
Defined.

(** * Further properties of the assembly *)

Lemma range_split lo hi l1 x l2 :
  range lo hi = l1 ++ x :: l2 →
  l1 = range lo x ∧ l2 = range (x + 1) hi ∧ lo ≤ x < hi.
Proof.
  intros Heq.
  assert (Hx : lo ≤ x < hi) by (apply elem_of_range; rewrite Heq; set_solver).
  assert (Hsplit : range lo hi = range lo x ++ x :: range (x + 1) hi).
  { unfold range. replace (hi - lo) with ((x - lo) + (hi - x)) by lia.
    rewrite seqZ_app by lia. f_equal. rewrite seqZ_cons by lia.
    f_equal; [lia|]. f_equal; lia. }
  assert (Hlen : length l1 = length (range lo x)).
  { eapply (NoDup_lookup (range lo hi) _ _ x); [apply NoDup_range| |].
    - rewrite Heq. by apply list_lookup_middle.
    - rewrite Hsplit. by apply list_lookup_middle. }
  rewrite Hsplit in Heq. symmetry in Heq.
  apply app_inj_1 in Heq as [-> [= ->]]; done.
Qed.

Section failures.
Context (probs : gmap (Z * Z) Qc).

Lemma cell_step_Raise i a j e :
  cell_step probs i a j = Raise e ↔ probs !! (i, j) = None ∧ e = KeyError (i, j).
Proof.
  unfold cell_step, get_item. destruct (probs !! (i, j)); simpl; split;
    try done; [intros [[=] _]|intros [= <-]; done|intros [_ ->]; done].
Qed.

Lemma rows_Ok_keys js is_ a a' :
  for_each (λ a i, for_each (cell_step probs i) a js) a is_ = Ok a' →
  ∀ i j, i ∈ is_ → j ∈ js → is_Some (probs !! (i, j)).
Proof.
  revert a. induction is_ as [|i0 is_ IH]; intros a; simpl.
  { intros _ i j Hi. by apply elem_of_nil in Hi. }
  rewrite bind_Ok. intros (a1 & [Hall _]%cell_loop_Ok & Hrest) i j Hi Hj.
  apply elem_of_cons in Hi as [->|Hi]; [|by eapply IH].
  rewrite Forall_forall in Hall. by apply Hall.
Qed.

(** The loops stop at the first pair of tiles, row by row, that the table
    lacks. *)
Lemma rows_Raise size a e :
  for_each (λ a i, for_each (cell_step probs i) a (range 0 (size + 1)))
           a (range 0 (size + 1)) = Raise e →
  ∃ i j, 0 ≤ i ≤ size ∧ 0 ≤ j ≤ size
    ∧ probs !! (i, j) = None ∧ e = KeyError (i, j)
    ∧ ∀ i' j', 0 ≤ i' ≤ size → 0 ≤ j' ≤ size →
        i' < i ∨ (i' = i ∧ j' < j) → is_Some (probs !! (i', j')).
Proof.
  intros Hrows.
  apply for_each_stops in Hrows as (l1 & i & l2 & a1 & Hl & Hl1 & Hrow); [|done].
  apply for_each_stops in Hrow as (r1 & j & r2 & a2 & Hr & Hr1 & Hcell); [|done].
  apply range_split in Hl as (-> & _ & Hi). apply range_split in Hr as (-> & _ & Hj).
  apply cell_step_Raise in Hcell as [Hnone ->].
  exists i, j. do 4 (split; [done || lia|]).
  intros i' j' Hi' Hj' [Hlt|[-> Hlt]].
  - eapply rows_Ok_keys; [exact Hl1|apply elem_of_range; lia..].
  - apply cell_loop_Ok in Hr1 as [Hall _]. rewrite Forall_forall in Hall.
    apply Hall, elem_of_range. lia.
Qed.

(** The column never fails on a board size that is not negative. *)
Lemma column_Ok size (a : list (list Qc)) :
  0 ≤ size →
  (b ← np_zeros (size + 1) 1;
   b ← set_entry ((λ row, (default 0 (head row) - 1)%Qc) <$> b) size 0%Qc;
   Ok (a, b))
  = Ok (a, constant size <$> range 0 (size + 1)).
Proof.
  intros [n ->]%Z_of_nat_complete. rewrite np_zeros_Ok by lia. cbn -[replicate].
  replace (Z.to_nat (Z.of_nat n + 1)) with (S n) by lia.
  rewrite fmap_replicate. unfold set_entry. rewrite length_replicate.
  destruct (Z.ltb_spec (Z.of_nat n) (- Z.of_nat (S n))); [lia|].
  destruct (Z.leb_spec (Z.of_nat (S n)) (Z.of_nat n)); [lia|].
  destruct (Z.ltb_spec (Z.of_nat n) 0); [lia|]. cbn -[replicate].
  by rewrite Nat2Z.id, fill_column.
Qed.
End failures.

(** X6: [make_matrices] fails in three ways only: [ValueError] when
    [size < -1] (a negative dimension for [np.zeros]), [IndexError] when
    [size = -1] ([b[size]] on an empty column), and for [size >= 0] a
    [KeyError] naming the first pair of tiles, row by row, that the table
    lacks. *)
Theorem make_matrices_failures probs size e :
  make_matrices probs size = Raise e →
  (size < -1 ∧ e = ValueError)
  ∨ (size = -1 ∧ e = IndexError)
  ∨ (0 ≤ size
     ∧ ∃ i j, 0 ≤ i ≤ size ∧ 0 ≤ j ≤ size
         ∧ probs !! (i, j) = None ∧ e = KeyError (i, j)
         ∧ ∀ i' j', 0 ≤ i' ≤ size → 0 ≤ j' ≤ size →
             i' < i ∨ (i' = i ∧ j' < j) → is_Some (probs !! (i', j'))).
Proof.
  intros Hraise.
  destruct (decide (size < -1)) as [Hneg|Hge].
  { left. split; [done|]. unfold make_matrices, np_zeros in Hraise.
    destruct (Z.ltb_spec (size + 1) 0); [|lia]. simpl in Hraise. congruence. }
  destruct (decide (size = -1)) as [->|Hne].
  { right. left. split; [done|]. vm_compute in Hraise. congruence. }
  right. right. split; [lia|].
  unfold make_matrices in Hraise.
  apply bind_Raise in Hraise as [Hzeros|(a0 & _ & Hraise)].
  { by rewrite np_zeros_Ok in Hzeros by lia. }
  apply bind_Raise in Hraise as [Hrows|(a1 & _ & Hcol)].
  - by apply rows_Raise in Hrows.
  - by rewrite column_Ok in Hcol by lia.
Qed.

Lemma make_matrices_failures_witness :
  let probs : gmap (Z * Z) Qc := {[(0, 0) := 0%Qc; (0, 1) := 1%Qc; (1, 1) := 0%Qc]} in
  make_matrices probs 1 = Raise (KeyError (1, 0))
  ∧ ((1 < -1 ∧ KeyError (1, 0) = ValueError)
     ∨ (1 = -1 ∧ KeyError (1, 0) = IndexError)
     ∨ (0 ≤ 1
        ∧ ∃ i j, 0 ≤ i ≤ 1 ∧ 0 ≤ j ≤ 1
            ∧ probs !! (i, j) = None ∧ KeyError (1, 0) = KeyError (i, j)
            ∧ ∀ i' j', 0 ≤ i' ≤ 1 → 0 ≤ j' ≤ 1 →
                i' < i ∨ (i' = i ∧ j' < j) → is_Some (probs !! (i', j')))).
Proof.
  intros probs.
  assert (H : make_matrices probs 1 = Raise (KeyError (1, 0)))
    by (vm_compute; reflexivity).
  split; [exact H|]. exact (make_matrices_failures probs 1 _ H).
Defined.

(** X7: a table built for a board of [size'] tiles can be assembled for
    any smaller board (the extra tiles are ignored), but for a larger board
    [make_matrices] raises [KeyError] for [(0, size' + 1)], the first pair
    the table lacks. *)
Theorem make_matrices_other_size
    fuel size' snadders dice_size transitive exact probs size :
  get_probabilities fuel size' snadders dice_size transitive exact = Ok probs →
  0 ≤ size →
  (size ≤ size' → ∃ a b, make_matrices probs size = Ok (a, b))
  ∧ (0 ≤ size' < size →
     make_matrices probs size = Raise (KeyError (0, size' + 1))).
Proof.
  intros Hget Hsize. split.
  - intros Hle. do 2 eexists. apply make_matrices_Ok.
    split; [done|]. split; [|done]. intros i j Hi Hj.
    apply (table_keys _ _ _ _ _ _ _ _ _ Hget). lia.
  - intros Hlt.
    destruct (make_matrices probs size) as [[a b]|e|] eqn:Hmake.
    + apply make_matrices_Ok in Hmake as (_ & Hkeys & _).
      specialize (Hkeys 0 (size' + 1) ltac:(lia) ltac:(lia)).
      apply (table_keys _ _ _ _ _ _ _ _ _ Hget) in Hkeys. lia.
    + apply make_matrices_failures in Hmake
        as [[? _]|[[? _]|(_ & i & j & Hi & Hj & Hnone & -> & Hfirst)]]; [lia..|].
      assert (Hmiss : ¬ is_Some (probs !! (0, size' + 1))).
      { rewrite (table_keys _ _ _ _ _ _ _ _ _ Hget). lia. }
      destruct (decide (0 < i ∨ (i = 0 ∧ size' + 1 < j))) as [Hlater|Hnot].
      { destruct Hmiss. apply Hfirst; lia. }
      assert (i = 0) as -> by lia.
      assert (Hj' : ¬ j ≤ size').
      { intros Hle. assert (Hin : is_Some (probs !! (0, j)))
          by (apply (table_keys _ _ _ _ _ _ _ _ _ Hget); lia).
        rewrite Hnone in Hin. by destruct Hin. }
      by replace j with (size' + 1) by lia.
    + by apply make_matrices_not_Diverge in Hmake.
Qed.

Lemma make_matrices_other_size_witness :
  ∃ probs,
    get_probabilities 0 2 None 2 false false = Ok probs
    ∧ (∃ a b, make_matrices probs 1 = Ok (a, b))
    ∧ make_matrices probs 4 = Raise (KeyError (0, 2 + 1)).
Proof.
  eexists.
  assert (Hget : get_probabilities 0 2 None 2 false false = Ok _)
    by (vm_compute; reflexivity).
  split; [exact Hget|]. split.
  - apply (make_matrices_other_size _ _ _ _ _ _ _ 1 Hget); lia.
  - apply (make_matrices_other_size _ _ _ _ _ _ _ 4 Hget); lia.
Defined.

(** * Further properties of [solve] *)

(** [solve] returns entry 0 of the solution when the system has exactly
    one. *)
Lemma solve_unique_solution fuel board_size snadders dice_size a b x :
  system fuel board_size snadders dice_size = Ok (a, b) →
  solves a b x → (∀ y, solves a b y → y = x) → x ≠ [] →
  ∀ o, solve fuel board_size snadders dice_size o ↔ o = Ok (component x 0).
Proof.
  intros Hsys Hx Huniq Hne o.
  assert (Honly : ∀ o', linalg_solve a b o' → o' = Ok x).
  { intros o' [y Hy _|Hnone]; [by rewrite (Huniq y Hy)|].
    destruct Hnone. eauto. }
  assert (Hx0 : x !! 0%nat = Some (component x 0)) by (by destruct x).
  split.
  - intros [a' b' y e0 Hsys' Hy He0|a' b' Hsys' Hy|e Hsys'|Hsys'];
      rewrite Hsys in Hsys'; try discriminate; injection Hsys' as <- <-.
    + apply Honly in Hy as [= ->]. congruence.
    + by apply Honly in Hy.
  - intros ->. eapply solve_returns; [exact Hsys| |exact Hx0]. by constructor.
Qed.

Lemma Qc_sum_nonneg {A} (f : A → Qc) (l : list A) :
  (∀ x, x ∈ l → (0 ≤ f x)%Qc) → (0 ≤ Qc_sum (f <$> l))%Qc.
Proof.
  induction l as [|x l IH]; intros Hf; csimpl; [done|]. rewrite Qc_sum_cons.
  apply Qcplus_nonneg_nonneg; [apply Hf; left|]. apply IH.
  intros y Hy. apply Hf. by right.
Qed.

(** The average over the rolls of amounts that are not negative is not
    negative, also for a dice without faces. *)
Lemma average_nonneg dice_size (f : Z → Qc) :
  (∀ r, 1 ≤ r ≤ dice_size → (0 ≤ f r)%Qc) →
  (0 ≤ 1 / Qc_of_Z dice_size * Qc_sum (f <$> range 1 (dice_size + 1)))%Qc.
Proof.
  intros Hf. destruct (decide (1 ≤ dice_size)) as [HD|HD].
  - apply Qcmult_nonneg_nonneg; [by apply Qclt_le_weak, share_pos|].
    apply Qc_sum_nonneg. intros r Hr%elem_of_range. apply Hf. lia.
  - rewrite range_nil by lia. csimpl. by rewrite Qc_sum_nil, Qcmult_0_r.
Qed.

Section forward_moves.
Context (size dice_size : Z) (land : Z → Z → Z).
Context (Hsize : 0 ≤ size).
Context (Hfwd : ∀ i r, 0 ≤ i < size → 1 ≤ r ≤ dice_size → i < land i r ≤ size).

Lemma tail_rolls_spec (k : nat) :
  Z.of_nat k ≤ size →
  length (tail_rolls size dice_size land k) = S k
  ∧ component (tail_rolls size dice_size land k) (Z.of_nat k) = 0%Qc
  ∧ ∀ j, 0 ≤ j < Z.of_nat k →
      component (tail_rolls size dice_size land k) j
      = (1 + 1 / Qc_of_Z dice_size
             * Qc_sum ((λ r, component (tail_rolls size dice_size land k)
                               (land (size - Z.of_nat k + j) r - (size - Z.of_nat k)))
                       <$> range 1 (dice_size + 1)))%Qc.
Proof.
  induction k as [|k IH]; intros Hk.
  { split; [done|]. split; [done|]. intros j Hj. lia. }
  destruct IH as (Hlen & Hend & Heq); [lia|].
  cbn [tail_rolls]. set (rest := tail_rolls size dice_size land k) in *.
  split; [simpl; by rewrite Hlen|]. split.
  { rewrite component_cons by lia.
    by replace (Z.of_nat (S k) - 1) with (Z.of_nat k) by lia. }
  intros j Hj. destruct (decide (j = 0)) as [->|Hne].
  - unfold component at 1. rewrite Z.add_0_r.
    change (Z.to_nat 0) with 0%nat. cbn [lookup list_lookup default].
    unfold id. do 2 f_equal.
    apply Qc_sum_ext. intros r Hr%elem_of_range.
    pose proof (Hfwd (size - Z.of_nat (S k)) r ltac:(lia) ltac:(lia)).
    rewrite component_cons by lia. f_equal. lia.
  - rewrite component_cons by lia. rewrite Heq by lia. do 2 f_equal.
    apply Qc_sum_ext. intros r Hr%elem_of_range.
    pose proof (Hfwd (size - Z.of_nat (S k) + j) r ltac:(lia) ltac:(lia)).
    rewrite component_cons by lia.
    replace (size - Z.of_nat k + (j - 1)) with (size - Z.of_nat (S k) + j) by lia.
    f_equal. lia.
Qed.

Lemma forward_expectation_exists : ∃ x, expectation size dice_size land x.
Proof.
  exists (tail_rolls size dice_size land (Z.to_nat size)).
  destruct (tail_rolls_spec (Z.to_nat size)) as (Hlen & Hend & Heq); [lia|].
  rewrite Z2Nat.id in Hend, Heq by lia.
  split; [rewrite Hlen; lia|]. split; [done|]. intros i Hi.
  rewrite Heq by lia. do 2 f_equal. apply Qc_sum_ext. intros r _.
  replace (size - size + i) with i by lia. by rewrite Z.sub_diag, Z.sub_0_r.
Qed.

Lemma forward_expectation_unique x y :
  expectation size dice_size land x → expectation size dice_size land y → x = y.
Proof.
  intros (Hxlen & Hxend & Hx) (Hylen & Hyend & Hy).
  assert (Hind : ∀ (k : nat) i, size - i ≤ Z.of_nat k → 0 ≤ i ≤ size →
                   component x i = component y i).
  { induction k as [|k IH]; intros i Hk Hi.
    - replace i with size by lia. by rewrite Hxend, Hyend.
    - destruct (decide (i = size)) as [->|Hne]; [by rewrite Hxend, Hyend|].
      rewrite Hx, Hy by lia. do 2 f_equal. apply Qc_sum_ext.
      intros r Hr%elem_of_range.
      pose proof (Hfwd i r ltac:(lia) ltac:(lia)). apply IH; lia. }
  rewrite (vector_tabulate x (size + 1)) by done.
  rewrite (vector_tabulate y (size + 1)) by done.
  apply fmap_eq_inv. intros i Hi%elem_of_range.
  apply (Hind (Z.to_nat (size - i))); lia.
Qed.

(** From every tile before the end at least one roll is expected. *)
Lemma forward_expectation_ge_1 x i :
  expectation size dice_size land x → 0 ≤ i < size → (1 ≤ component x i)%Qc.
Proof.
  intros (_ & Hend & Heq).
  assert (Hind : ∀ (k : nat) i, size - i ≤ Z.of_nat k → 0 ≤ i ≤ size →
                   (0 ≤ component x i)%Qc ∧ (i < size → (1 ≤ component x i)%Qc)).
  { clear i. induction k as [|k IH]; intros i Hk Hi;
      (destruct (decide (i = size)) as [->|Hne];
       [rewrite Hend; split; [done|lia]|]); [lia|].
    assert (Hone : (1 ≤ component x i)%Qc).
    { rewrite Heq by lia.
      rewrite <-(Qcplus_0_r 1) at 1. apply Qcplus_le_mono_l.
      apply average_nonneg. intros r Hr.
      pose proof (Hfwd i r ltac:(lia) ltac:(lia)). apply IH; lia. }
    split; [|done]. etrans; [|exact Hone]. done. }
  intros Hi. apply (Hind (Z.to_nat (size - i))); lia.
Qed.
End forward_moves.

(** When every roll [solve] considers ends further on, the system has
    exactly one solution and [solve] returns its entry 0. *)
Lemma forward_board_solve fuel board_size snadders dice_size :
  0 ≤ board_size →
  (∀ i r, 0 ≤ i < board_size → 1 ≤ r ≤ dice_size →
     ∃ t, landing fuel board_size (default ∅ snadders) false false i r = Ok t
          ∧ i < t) →
  ∃ x,
    expectation board_size dice_size
                (lands fuel board_size (default ∅ snadders) false false) x
    ∧ (∀ i, 0 ≤ i < board_size → (1 ≤ component x i)%Qc)
    ∧ ∀ o, solve fuel board_size snadders dice_size o ↔ o = Ok (component x 0).
Proof.
  intros Hsize Hland.
  destruct (proj2 (get_probabilities_Ok fuel board_size snadders dice_size false false))
    as [probs Hget].
  { intros i r Hi Hr. destruct (Hland i r Hi Hr) as (t & Ht & Hlt).
    exists t. split; [done|lia]. }
  pose proof (make_matrices_table _ _ _ _ _ _ _ Hget Hsize) as Hmake.
  assert (Hsys : system fuel board_size snadders dice_size = Ok (_, _))
    by (apply system_Ok; eauto).
  assert (Hfwd : ∀ i r, 0 ≤ i < board_size → 1 ≤ r ≤ dice_size →
    i < lands fuel board_size (default ∅ snadders) false false i r ≤ board_size).
  { intros i r Hi Hr. destruct (Hland i r Hi Hr) as (t & Ht & Hlt).
    unfold lands. rewrite Ht. split; [done|].
    apply landing_Ok in Ht as (e & _ & ->). apply overshoot_le. lia. }
  destruct (forward_expectation_exists board_size dice_size _ Hsize Hfwd) as [x Hx].
  exists x. split; [done|]. split.
  { intros i Hi. by eapply forward_expectation_ge_1. }
  eapply solve_unique_solution; [exact Hsys| | |].
  - by apply (solves_expectation _ _ _ _ _ _ _ Hsize Hget _ _ x Hmake).
  - intros y Hy%(solves_expectation _ _ _ _ _ _ _ Hsize Hget _ _ y Hmake).
    by eapply forward_expectation_unique.
  - destruct Hx as [Hlen _]. intros ->. simpl in Hlen. lia.
Qed.



Lemma solve_system_Raise fuel board_size snadders dice_size e :
  system fuel board_size snadders dice_size = Raise e →
  ∀ o, solve fuel board_size snadders dice_size o ↔ o = Raise e.
Proof.
  intros Hsys o. split.
  - intros [a b x e0 Hsys' Hsol He0|a b Hsys' Hsol|e' Hsys'|Hsys'];
      rewrite Hsys in Hsys'; congruence.
  - intros ->. by apply solve_raises.
Qed.

(** X9: the degenerate board sizes.  For [board_size = 0] the start tile
    is the end tile and [solve] returns 0; for [board_size = -1] it raises
    [IndexError] and for [board_size < -1] it raises [ValueError], in every
    case whatever the snadders and the dice. *)
Theorem solve_degenerate_sizes fuel board_size snadders dice_size o :
  (board_size = 0 → (solve fuel board_size snadders dice_size o ↔ o = Ok 0%Qc))
  ∧ (board_size = -1 →
     (solve fuel board_size snadders dice_size o ↔ o = Raise IndexError))
  ∧ (board_size < -1 →
     (solve fuel board_size snadders dice_size o ↔ o = Raise ValueError)).
Proof.
  split; [|split].
  - intros ->.
    destruct (forward_board_solve fuel 0 snadders dice_size) as (x & Hx & _ & Hsolve);
      [lia|intros; lia|].
    rewrite Hsolve. by rewrite (proj1 (proj2 Hx)).
  - intros ->. apply solve_system_Raise. unfold system, default_transitive, default_exact.
    rewrite (proj1 (no_rolls_no_moves fuel (-1) snadders dice_size false false
                      ltac:(lia))).
    vm_compute. reflexivity.
  - intros Hneg. apply solve_system_Raise. unfold system, default_transitive, default_exact.
    rewrite (proj1 (no_rolls_no_moves fuel board_size snadders dice_size false false
                      ltac:(lia))).
    simpl. unfold make_matrices, np_zeros.
    destruct (Z.ltb_spec (board_size + 1) 0); [done|lia].
Qed.



(** X11: with a dice without faces ([dice_size <= 0]) no tile leads
    anywhere, and on a board of at least one tile [solve] returns 1,
    whatever the snadders. *)
Theorem solve_without_faces fuel board_size snadders dice_size :
  1 ≤ board_size → dice_size ≤ 0 →
  ∀ o, solve fuel board_size snadders dice_size o ↔ o = Ok 1%Qc.
Proof.
  intros Hsize HD o.
  destruct (forward_board_solve fuel board_size snadders dice_size)
    as (x & (_ & _ & Heq) & _ & Hsolve); [lia|intros; lia|].
  rewrite Hsolve, Heq by lia. rewrite range_nil by lia. csimpl.
  by rewrite Qc_sum_nil, Qcmult_0_r, Qcplus_0_r.
Qed.

Lemma solve_without_faces_witness :
  solve 0 3 (Some {[1 := 2; 2 := 1]}) 0 (Ok 1%Qc)
  ∧ ¬ solve 0 3 (Some {[1 := 2; 2 := 1]}) 0 (Raise LinAlgError).
Proof.
  pose proof (solve_without_faces 0 3 (Some {[1 := 2; 2 := 1]}) 0
                ltac:(lia) ltac:(lia)) as H.
  split; [by apply H|]. intros Hsing. by apply H in Hsing.
Defined.

(** X12: under single resolution the snadder map is only read at the raw
    landing tiles [1 .. size - 1 + dice_size]: two maps that agree there
    give the same outcome, so a snadder that starts on tile 0, on a
    negative tile or further than a full dice past the last tile before the
    end has no effect (while one that starts just past the end tile is
    read). *)
Theorem unreachable_snadders_ignored
    fuel size (snadders snadders' : gmap Z Z) dice_size exact :
  (∀ k, 1 ≤ k ≤ size - 1 + dice_size → snadders !! k = snadders' !! k) →
  get_probabilities fuel size (Some snadders) dice_size false exact
  = get_probabilities fuel size (Some snadders') dice_size false exact.
Proof.
  intros Hagree. unfold get_probabilities. apply for_each_ext.
  intros result idx Hidx%elem_of_range. unfold tile_step. apply for_each_ext.
  intros result' roll Hroll%elem_of_range. unfold roll_step.
  rewrite !landing_once. simpl. by rewrite Hagree by lia.
Qed.

Lemma unreachable_snadders_ignored_witness :
  get_probabilities 0 3 (Some {[0 := 2; 1 := 2; 9 := 1]}) 2 false false
  = get_probabilities 0 3 (Some {[1 := 2]}) 2 false false.
Proof.
  apply unreachable_snadders_ignored. intros k Hk.
  rewrite lookup_insert_ne by lia.
  destruct (decide (k = 1)) as [->|Hne].
  - by rewrite lookup_insert_eq, lookup_singleton_eq.
  - rewrite lookup_insert_ne by done.
    by rewrite !lookup_singleton_ne by lia.
Defined.

(** A snadder that starts just past the end tile is read: the roll that
    would win is taken back to the board. *)
Example snadder_past_the_end :
  landing 0 3 {[4 := 1]} false false 2 2 = Ok 1
  ∧ landing 0 3 ∅ false false 2 2 = Ok 3.
Proof. split; vm_compute; reflexivity. Qed.
